(** * A model of the classic resource pool of [pool.go]

    The pool is a Go struct shared by goroutines: every method is run
    by some goroutine, and the goroutines interleave between any two
    accesses of the shared struct.  The embedding therefore has

    - the struct [classic], with the channel [srcs] as a bounded FIFO
      buffer and the embedded [sync.RWMutex] as a writer and a reader
      count;
    - one program point ([pc]) per statement of [pool.go] that touches
      the struct, the channel, the mutex or the outside world;
    - [exec], the effect of the statement at a program point, and
      [step], one statement of one goroutine;
    - [Step], the interleaving of all goroutines, and [steps], one
      goroutine running on its own.

    The resource, the factory and the callback are supplied by the
    caller of the package: their answers come from an [oracle] and
    every call of them is recorded in the [trace].  The methods of a
    resource and the factory are taken to return; a callback may
    panic, with a value that [recover()] reports as non-nil. *)

From Stdlib Require Import ZArith Lia.
From stdpp Require Import base tactics option list.

Local Open Scope Z_scope.

(** ** Go's [int] (64 bits, two's complement) *)

Definition int_min : Z := - 2 ^ 63.
Definition int_max : Z := 2 ^ 63 - 1.

Definition wrap (z : Z) : Z := (z + 2 ^ 63) mod 2 ^ 64 - 2 ^ 63.

Definition is_int (z : Z) : Prop := int_min <= z <= int_max.

(** ** Resources, errors and the outside world *)

(** A [Src] is a non-nil pointer; the number is its identity. *)
Definition Src := nat.

Inductive error :=
| releasedError                (* line 47 *)
| UserError (code : nat)       (* an error made by the factory or the callback *)
| FaultError (p : nat).        (* fmt.Errorf("%v", p), line 93 *)

(** How a call of the callback ends: it returns its [error] (nil is
    [None]) or it panics with a value, which [recover()] hands to the
    deferred function of [Call]. *)
Inductive outcome :=
| Returns (err : option error)
| Panics (p : nat).

(** What the outside world answers when it is called at a step. *)
Record oracle := {
  o_usable : bool;             (* src.IsUsable() *)
  o_factory : Src + error;     (* self.factory() *)
  o_callback : outcome         (* callback(src) *)
}.

Inductive event :=
| EvFactory (res : Src + error)
| EvIsUsable (src : Src) (b : bool)
| EvReset (src : Src)
| EvDestroy (src : Src)        (* src.Release() *)
| EvCallback (src : Src) (out : outcome).

(** ** The struct [classic] (lines 22-31) *)

Record classic := {
  srcs : list Src;             (* buffer of the channel, oldest first *)
  srcs_closed : bool;          (* close(self.srcs) was run *)
  capacity : Z;
  maxIdle : Z;
  len : Z;
  gctime : Z;
  released : bool;
  writer : option nat;         (* RWMutex: the goroutine inside Lock *)
  readers : nat                (* RWMutex: goroutines inside RLock *)
}.
(* The field [factory] is the oracle of each step. *)

Definition with_srcs (l : list Src) (p : classic) : classic :=
  {| srcs := l; srcs_closed := srcs_closed p; capacity := capacity p;
     maxIdle := maxIdle p; len := len p; gctime := gctime p;
     released := released p; writer := writer p; readers := readers p |}.

Definition with_closed (b : bool) (p : classic) : classic :=
  {| srcs := srcs p; srcs_closed := b; capacity := capacity p;
     maxIdle := maxIdle p; len := len p; gctime := gctime p;
     released := released p; writer := writer p; readers := readers p |}.

Definition with_len (n : Z) (p : classic) : classic :=
  {| srcs := srcs p; srcs_closed := srcs_closed p; capacity := capacity p;
     maxIdle := maxIdle p; len := n; gctime := gctime p;
     released := released p; writer := writer p; readers := readers p |}.

Definition with_released (b : bool) (p : classic) : classic :=
  {| srcs := srcs p; srcs_closed := srcs_closed p; capacity := capacity p;
     maxIdle := maxIdle p; len := len p; gctime := gctime p;
     released := b; writer := writer p; readers := readers p |}.

Definition with_writer (w : option nat) (p : classic) : classic :=
  {| srcs := srcs p; srcs_closed := srcs_closed p; capacity := capacity p;
     maxIdle := maxIdle p; len := len p; gctime := gctime p;
     released := released p; writer := w; readers := readers p |}.

Definition with_readers (n : nat) (p : classic) : classic :=
  {| srcs := srcs p; srcs_closed := srcs_closed p; capacity := capacity p;
     maxIdle := maxIdle p; len := len p; gctime := gctime p;
     released := released p; writer := writer p; readers := n |}.

(** *** sync.RWMutex

    [RLock] waits while a writer is inside, [Lock] waits while anyone
    is inside: a waiting operation has no step ([None]).  Go also
    makes new readers wait behind a [Lock] that waits behind a reader;
    a waiting [Lock] leaves no mark here, so the schedules of Go are
    among the schedules here.  What holds in every state of every
    schedule holds for Go, and so does a goroutine that has no step.
    That a goroutine runs on to its return is only stated for a mutex
    with nobody inside ([writer = None] and [readers = 0]), where no
    [Lock] can be waiting.  [writer] names the goroutine inside
    [Lock]: the mutex of Go does not store it, the goroutine knows. *)

Definition RLock (p : classic) : option classic :=
  match writer p with
  | None => Some (with_readers (S (readers p)) p)
  | Some _ => None
  end.

Definition RUnlock (p : classic) : classic :=
  with_readers (Nat.pred (readers p)) p.

Definition Lock (t : nat) (p : classic) : option classic :=
  match writer p, readers p with
  | None, O => Some (with_writer (Some t) p)
  | _, _ => None
  end.

Definition Unlock (p : classic) : classic := with_writer None p.

(** *** The channel [srcs], made by [make(chan Src, capacity)]

    A receive takes the oldest resource of the buffer and waits on an
    empty open channel; a send waits while the buffer is full.  With
    capacity 0 there is no buffer and Go hands a resource over when a
    sender meets a receiver; here such a sender waits.  A pool of
    capacity 0 never has a resource to send ([reachable_Barren]
    below). *)

(** len(self.srcs) *)
Definition chan_len (p : classic) : Z := Z.of_nat (length (srcs p)).

Inductive received :=
| Got (src : Src) (p : classic)   (* a buffered resource *)
| GotNil                          (* closed and empty: the zero value *)
| Empty.                          (* open and empty *)

Definition receive (p : classic) : received :=
  match srcs p with
  | src :: rest => Got src (with_srcs rest p)
  | [] => if srcs_closed p then GotNil else Empty
  end.

Inductive sent :=
| Sent (p : classic)
| SendPanics                      (* send on a closed channel *)
| Full.                           (* no free slot: the sender waits *)

Definition send (src : Src) (p : classic) : sent :=
  if srcs_closed p then SendPanics
  else if chan_len p <? capacity p then Sent (with_srcs (srcs p ++ [src]) p)
  else Full.

(** ** Program points

    One constructor per statement; the comment gives the line of
    [pool.go] the goroutine is about to run.  [R] and [W] mark the
    points inside a read-locked and a write-locked region. *)

Inductive pc :=
(* Call, lines 67-99, with del, incAuto and recover inlined *)
| Call_RLock                                   (* 70 *)
| Call_released                                (* 71  R *)
| Call_closed_RUnlock                          (* 72-73  R *)
| Call_select                                  (* 75-76, 82  R *)
| Call_got_RUnlock (src : Src)                 (* 77  R *)
| Call_nil_RUnlock                             (* 77  R, src is nil *)
| Call_IsUsable (src : Src)                    (* 78 *)
| del_Release (src : Src)                      (* 157 *)
| del_Lock                                     (* 158 *)
| del_dec                                      (* 159  W *)
| del_Unlock                                   (* 160  W, then 80 *)
| Call_default_RUnlock                         (* 83  R *)
| incAuto_Lock                                 (* 141 *)
| incAuto_check                                (* 143  W *)
| incAuto_factory                              (* 146  W *)
| incAuto_send (src : Src)                     (* 150  W *)
| incAuto_inc                                  (* 151  W *)
| incAuto_Unlock (err : option error)          (* 142, deferred  W *)
| Call_incAuto_ret (err : option error)        (* 85-89 *)
| Call_callback (src : Src)                    (* 97, then 92-94 *)
| recover_RLock (src : Src) (err : option error)     (* 165 *)
| recover_released (src : Src) (err : option error)  (* 167  R *)
| recover_Reset (src : Src) (err : option error)     (* 170  R *)
| recover_send (src : Src) (err : option error)      (* 171  R *)
| recover_RUnlock (err : option error)         (* 166, deferred  R *)
| Call_return (err : option error)             (* Call has returned *)
(* Release, lines 102-114 *)
| Release_Lock                                 (* 103 *)
| Release_released                             (* 105  W *)
| Release_set                                  (* 108  W *)
| Release_len                                  (* 109, i := len(self.srcs)  W *)
| Release_drain (i : Z)                        (* 109-110  W *)
| Release_close                                (* 112  W *)
| Release_zero                                 (* 113  W *)
| Release_Unlock                               (* 104, deferred  W *)
| Release_return                               (* Release has returned *)
(* Len, lines 117-121 *)
| Len_RLock                                    (* 118 *)
| Len_read                                     (* 120  R *)
| Len_RUnlock (n : Z)                          (* 119, deferred  R *)
| Len_return (n : Z)
(* gc, lines 124-137, with isReleased inlined *)
| gc_isReleased_RLock                          (* 176 *)
| gc_isReleased_read                           (* 178  R *)
| gc_isReleased_RUnlock (b : bool)             (* 177, deferred  R *)
| gc_Lock                                      (* 126 *)
| gc_extra                                     (* 127-128  W *)
| gc_sub (extra : Z)                           (* 129  W *)
| gc_drain (extra : Z)                         (* 130-131  W *)
| gc_Unlock                                    (* 134  W *)
| gc_Sleep                                     (* 135 *)
| gc_return
(* a run-time panic that nothing recovers *)
| panicked.

(** The error [Call] returns for an outcome of the callback: what the
    callback returned (line 97), or the panic value turned into an
    error by the deferred function (lines 92-94). *)
Definition callback_error (out : outcome) : option error :=
  match out with
  | Returns err => err
  | Panics v => Some (FaultError v)
  end.

(** ** One statement

    [exec t o p c] runs the statement at [c] for goroutine [t] on the
    struct [p]: the struct after it, the next program point and the
    calls made to the outside world.  [None]: the goroutine waits (on
    the mutex or on the channel) or has returned. *)

Definition exec (t : nat) (o : oracle) (p : classic) (c : pc)
  : option (classic * pc * list event) :=
  match c with
  (* Call *)
  | Call_RLock =>
      p' ← RLock p; Some (p', Call_released, [])
  | Call_released =>
      Some (p, (if released p then Call_closed_RUnlock else Call_select), [])
  | Call_closed_RUnlock =>
      Some (RUnlock p, Call_return (Some releasedError), [])
  | Call_select =>
      match receive p with
      | Got src p' => Some (p', Call_got_RUnlock src, [])
      | GotNil => Some (p, Call_nil_RUnlock, [])
      | Empty => Some (p, Call_default_RUnlock, [])
      end
  | Call_got_RUnlock src =>
      Some (RUnlock p, Call_IsUsable src, [])
  | Call_nil_RUnlock =>
      Some (RUnlock p, panicked, [])
  | Call_IsUsable src =>
      Some (p, (if o_usable o then Call_callback src else del_Release src),
            [EvIsUsable src (o_usable o)])
  | del_Release src =>
      Some (p, del_Lock, [EvDestroy src])
  | del_Lock =>
      p' ← Lock t p; Some (p', del_dec, [])
  | del_dec =>
      Some (with_len (wrap (len p - 1)) p, del_Unlock, [])
  | del_Unlock =>
      Some (Unlock p, Call_RLock, [])
  | Call_default_RUnlock =>
      Some (RUnlock p, incAuto_Lock, [])
  | incAuto_Lock =>
      p' ← Lock t p; Some (p', incAuto_check, [])
  | incAuto_check =>
      Some (p, (if capacity p <=? len p then incAuto_Unlock None
                else incAuto_factory), [])
  | incAuto_factory =>
      Some (p, match o_factory o with
               | inl src => incAuto_send src
               | inr err => incAuto_Unlock (Some err)
               end, [EvFactory (o_factory o)])
  | incAuto_send src =>
      match send src p with
      | Sent p' => Some (p', incAuto_inc, [])
      | SendPanics => Some (Unlock p, panicked, [])
      | Full => None
      end
  | incAuto_inc =>
      Some (with_len (wrap (len p + 1)) p, incAuto_Unlock None, [])
  | incAuto_Unlock err =>
      Some (Unlock p, Call_incAuto_ret err, [])
  | Call_incAuto_ret err =>
      Some (p, match err with
               | Some _ => Call_return err
               | None => Call_RLock       (* runtime.Gosched(); goto wait *)
               end, [])
  | Call_callback src =>
      Some (p, recover_RLock src (callback_error (o_callback o)),
            [EvCallback src (o_callback o)])
  | recover_RLock src err =>
      p' ← RLock p; Some (p', recover_released src err, [])
  | recover_released src err =>
      Some (p, (if released p then recover_RUnlock err
                else recover_Reset src err), [])
  | recover_Reset src err =>
      Some (p, recover_send src err, [EvReset src])
  | recover_send src err =>
      match send src p with
      | Sent p' => Some (p', recover_RUnlock err, [])
      | SendPanics => Some (RUnlock p, panicked, [])
      | Full => None
      end
  | recover_RUnlock err =>
      Some (RUnlock p, Call_return err, [])
  | Call_return _ => None
  (* Release *)
  | Release_Lock =>
      p' ← Lock t p; Some (p', Release_released, [])
  | Release_released =>
      Some (p, (if released p then Release_Unlock else Release_set), [])
  | Release_set =>
      Some (with_released true p, Release_len, [])
  | Release_len =>
      Some (p, Release_drain (chan_len p), [])
  | Release_drain i =>
      if 0 <=? i then
        match receive p with
        | Got src p' => Some (p', Release_drain (wrap (i - 1)), [EvDestroy src])
        | GotNil => Some (Unlock p, panicked, [])
        | Empty => None
        end
      else Some (p, Release_close, [])
  | Release_close =>
      Some (with_closed true p, Release_zero, [])
  | Release_zero =>
      Some (with_len 0 p, Release_Unlock, [])
  | Release_Unlock =>
      Some (Unlock p, Release_return, [])
  | Release_return => None
  (* Len *)
  | Len_RLock =>
      p' ← RLock p; Some (p', Len_read, [])
  | Len_read =>
      Some (p, Len_RUnlock (len p), [])
  | Len_RUnlock n =>
      Some (RUnlock p, Len_return n, [])
  | Len_return _ => None
  (* gc *)
  | gc_isReleased_RLock =>
      p' ← RLock p; Some (p', gc_isReleased_read, [])
  | gc_isReleased_read =>
      Some (p, gc_isReleased_RUnlock (released p), [])
  | gc_isReleased_RUnlock b =>
      Some (RUnlock p, (if b then gc_return else gc_Lock), [])
  | gc_Lock =>
      p' ← Lock t p; Some (p', gc_extra, [])
  | gc_extra =>
      let extra := wrap (chan_len p - maxIdle p) in
      Some (p, (if 0 <? extra then gc_sub extra else gc_Unlock), [])
  | gc_sub extra =>
      Some (with_len (wrap (len p - extra)) p, gc_drain extra, [])
  | gc_drain extra =>
      if 0 <? extra then
        match receive p with
        | Got src p' => Some (p', gc_drain (wrap (extra - 1)), [EvDestroy src])
        | GotNil => Some (p, panicked, [])
        | Empty => None
        end
      else Some (p, gc_Unlock, [])
  | gc_Unlock =>
      Some (Unlock p, gc_Sleep, [])
  | gc_Sleep =>
      Some (p, gc_isReleased_RLock, [])
  | gc_return => None
  | panicked => None
  end.

(** ** The goroutines *)

Record state := {
  pool : classic;
  threads : list pc;           (* goroutine [t] is at [threads !! t] *)
  trace : list event           (* calls to the outside world, oldest first *)
}.

(** Goroutine [t] moves to [c]; the struct becomes [p] and [evs] is
    added to the trace. *)
Definition moved (t : nat) (c : pc) (p : classic) (evs : list event)
    (s : state) : state :=
  {| pool := p; threads := <[t := c]> (threads s); trace := trace s ++ evs |}.

Definition step (t : nat) (o : oracle) (s : state) : option state :=
  c ← threads s !! t;
  r ← exec t o (pool s) c;
  Some (moved t r.1.2 r.1.1 r.2 s).

(** A goroutine calls a method of the pool. *)
Inductive entry : pc → Prop :=
| entry_Call : entry Call_RLock
| entry_Release : entry Release_Lock
| entry_Len : entry Len_RLock.

Definition go (c : pc) (s : state) : state :=
  {| pool := pool s; threads := threads s ++ [c]; trace := trace s |}.

Inductive Step : state → state → Prop :=
| Step_thread t o s s' : step t o s = Some s' → Step s s'
| Step_go c s : entry c → Step s (go c s).

Inductive Steps : state → state → Prop :=
| Steps_refl s : Steps s s
| Steps_step s1 s2 s3 : Steps s1 s2 → Step s2 s3 → Steps s1 s3.

(** Goroutine [t] alone runs one statement per oracle of the list;
    [None] when it has to wait or has returned before the list ends. *)
Fixpoint steps (t : nat) (os : list oracle) (s : state) : option state :=
  match os with
  | [] => Some s
  | o :: os' => s' ← step t o s; steps t os' s'
  end.

(** ** ClassicPool (lines 50-64) *)

Definition GC_TIME : Z := 60000000000.

(** [make(chan Src, capacity)] panics for a negative capacity: no pool.
    [go pool.gc()] is goroutine 0. *)
Definition ClassicPool (capacity maxIdle : Z) (gctime : list Z) : option state :=
  if capacity <? 0 then None
  else Some {| pool := {| srcs := []; srcs_closed := false;
                          capacity := capacity; maxIdle := maxIdle;
                          len := 0; gctime := hd GC_TIME gctime;
                          released := false;
                          writer := None; readers := 0%nat |};
               threads := [gc_isReleased_RLock];
               trace := [] |}.

(** The states a pool made by [ClassicPool] can be in. *)
Definition reachable (s : state) : Prop :=
  ∃ capacity maxIdle gctime s0,
    is_int capacity ∧ is_int maxIdle ∧
    ClassicPool capacity maxIdle gctime = Some s0 ∧ Steps s0 s.


(** ** What the proofs speak about *)

(** The calls of the factory in a trace. *)
Fixpoint creations (tr : list event) : list (Src + error) :=
  match tr with
  | [] => []
  | EvFactory res :: tr' => res :: creations tr'
  | _ :: tr' => creations tr'
  end.

Definition sumZ {A} (f : A → Z) (l : list A) : Z :=
  foldr (λ x a, f x + a) 0 l.

(** Program points between [Lock] and [Unlock]. *)
Definition holdsW (c : pc) : bool :=
  match c with
  | del_dec | del_Unlock
  | incAuto_check | incAuto_factory | incAuto_send _ | incAuto_inc
  | incAuto_Unlock _
  | Release_released | Release_set | Release_len | Release_drain _
  | Release_close | Release_zero | Release_Unlock
  | gc_extra | gc_sub _ | gc_drain _ | gc_Unlock => true
  | _ => false
  end.

(** Program points between [RLock] and [RUnlock]. *)
Definition holdsR (c : pc) : bool :=
  match c with
  | Call_released | Call_closed_RUnlock | Call_select | Call_got_RUnlock _
  | Call_nil_RUnlock | Call_default_RUnlock
  | recover_released _ _ | recover_Reset _ _ | recover_send _ _
  | recover_RUnlock _
  | Len_read | Len_RUnlock _
  | gc_isReleased_read | gc_isReleased_RUnlock _ => true
  | _ => false
  end.

Definition reading (c : pc) : Z := if holdsR c then 1 else 0.

(** How far [len] is ahead of the channel because of the goroutine at
    [c]: one for a resource it has taken out of the channel and that
    [len] still counts; minus one after the send and before the
    increment of [incAuto]; minus what [gc] has subtracted and not yet
    received. *)
Definition weight (c : pc) : Z :=
  match c with
  | Call_got_RUnlock _ | Call_IsUsable _ | del_Release _ | del_Lock | del_dec
  | Call_callback _ | recover_RLock _ _ | recover_released _ _
  | recover_Reset _ _ | recover_send _ _ => 1
  | incAuto_inc => -1
  | gc_drain extra => - extra
  | _ => 0
  end.

(** Inside the drain loop of [Release], or about to enter it. *)
Definition draining (c : pc) : bool :=
  match c with
  | Release_len | Release_drain _ => true
  | _ => false
  end.

(** What holds of the struct while a goroutine is at [c]. *)
Definition pc_ok (p : classic) (c : pc) : Prop :=
  match c with
  | incAuto_factory | incAuto_send _ | incAuto_inc => len p < capacity p
  | Release_len => released p = true
  | Release_drain i => released p = true ∧ i = chan_len p
  | gc_sub extra => 0 < extra <= int_max
  | gc_drain extra => 0 <= extra <= int_max
  | gc_isReleased_RUnlock b => b = false
  | Call_closed_RUnlock | Call_nil_RUnlock
  | Release_close | Release_zero | Release_Unlock | Release_return
  | gc_return | panicked => False
  | _ => True
  end.

(** The invariant of the states of a pool: the channel stays open;
    [len] is at most [capacity]; while the pool is not closed, [len]
    is the number of resources in the channel plus the weights of the
    goroutines; a closed pool has its closer inside the drain loop,
    holding the write lock; the mutex excludes, and counts its
    readers; and [pc_ok] holds at every goroutine. *)
Record Inv (s : state) : Prop := {
  inv_open : srcs_closed (pool s) = false;
  inv_cap : 0 <= capacity (pool s) <= int_max;
  inv_maxIdle : is_int (maxIdle (pool s));
  inv_len : int_min <= len (pool s) <= capacity (pool s);
  inv_chan : chan_len (pool s) <= capacity (pool s);
  inv_count : released (pool s) = false →
    len (pool s) = chan_len (pool s) + sumZ weight (threads s);
  inv_drainer : released (pool s) = true →
    ∃ t c, writer (pool s) = Some t ∧ threads s !! t = Some c ∧
           draining c = true;
  inv_excl : ∀ t, writer (pool s) = Some t → readers (pool s) = 0%nat;
  inv_readers : Z.of_nat (readers (pool s)) = sumZ reading (threads s);
  inv_pc : ∀ t c, threads s !! t = Some c →
    (holdsW c = true → writer (pool s) = Some t) ∧ pc_ok (pool s) c
}.

(** *** The contracts, in the words of the specification *)

(** Growth: nothing when [live >= capacity]; otherwise the factory is
    invoked, and the new resource is parked and counted, or the error
    of the factory is returned with nothing changed. *)
Definition incAuto_contract (fac : Src + error) (p : classic)
  : classic * option error * list event :=
  if capacity p <=? len p then (p, None, [])
  else match fac with
       | inl src => (with_len (len p + 1) (with_srcs (srcs p ++ [src]) p),
                     None, [EvFactory (inl src)])
       | inr err => (p, Some err, [EvFactory (inr err)])
       end.

(** One pass of the reaper: with [I] idle resources and [I > maxIdle],
    the [I - maxIdle] oldest are taken from the free-list and
    destroyed and [live] decreases by as much; nothing otherwise. *)
Definition reaper_contract (p : classic) : classic * list event :=
  let excess := chan_len p - maxIdle p in
  if 0 <? excess then
    (with_len (len p - excess) (with_srcs (drop (Z.to_nat excess) (srcs p)) p),
     EvDestroy <$> take (Z.to_nat excess) (srcs p))
  else (p, []).

(** "[len] is unchanged by the whole [Call]": from the entry of [Call]
    to its return on a pool that is not closed. *)
Definition whole_Call_keeps_len (t : nat) (os : list oracle) (s : state)
  : Prop :=
  ∀ s' err,
    threads s !! t = Some Call_RLock →
    steps t os s = Some s' →
    threads s' !! t = Some (Call_return err) →
    released (pool s') = false →
    len (pool s') = len (pool s).

(** The program points of the retry loop of [Call] through the
    [default] branch with [incAuto] doing nothing. *)
Definition spinning (c : pc) : bool :=
  match c with
  | Call_RLock | Call_released | Call_select | Call_default_RUnlock
  | incAuto_Lock | incAuto_check | incAuto_Unlock None
  | Call_incAuto_ret None => true
  | _ => false
  end.

(** *** Pools and oracles for the examples *)

Definition fresh (capacity maxIdle : Z) : state :=
  {| pool := {| srcs := []; srcs_closed := false; capacity := capacity;
                maxIdle := maxIdle; len := 0; gctime := GC_TIME;
                released := false; writer := None; readers := 0%nat |};
     threads := [gc_isReleased_RLock]; trace := [] |}.

(** The factory makes resource [n]; resources are usable; the callback
    returns nil. *)
Definition makes (n : nat) : oracle :=
  {| o_usable := true; o_factory := inl n; o_callback := Returns None |}.

(** As [makes 7], with a callback that panics with value 3. *)
Definition faulty : oracle :=
  {| o_usable := true; o_factory := inl 7%nat; o_callback := Panics 3 |}.

(** As [makes 7], with resources that are not usable. *)
Definition unusable : oracle :=
  {| o_usable := false; o_factory := inl 7%nat; o_callback := Returns None |}.

(** [fresh 2 1] after one [Call] has returned: resource 7 is idle. *)
Definition parked7 : state :=
  {| pool := {| srcs := [7%nat]; srcs_closed := false; capacity := 2;
                maxIdle := 1; len := 1; gctime := GC_TIME; released := false;
                writer := None; readers := 0%nat |};
     threads := [gc_isReleased_RLock; Call_return None];
     trace := [EvFactory (inl 7%nat); EvIsUsable 7%nat true;
               EvCallback 7%nat (Returns None); EvReset 7%nat] |}.

(** A pool as [Release] would leave it, with a goroutine entering
    [Call] and one that borrowed resource 7 and is about to park it. *)
Definition closed21 : state :=
  {| pool := {| srcs := []; srcs_closed := true; capacity := 2;
                maxIdle := 1; len := 0; gctime := GC_TIME; released := true;
                writer := None; readers := 0%nat |};
     threads := [gc_isReleased_RLock; Release_return; Call_RLock;
                 recover_RLock 7%nat None];
     trace := [] |}.

(** [fresh 1 1] after a [Call] whose callback panicked with value 3. *)
Definition faulted7 : state :=
  {| pool := {| srcs := [7%nat]; srcs_closed := false; capacity := 1;
                maxIdle := 1; len := 1; gctime := GC_TIME; released := false;
                writer := None; readers := 0%nat |};
     threads := [gc_isReleased_RLock; Call_return (Some (FaultError 3))];
     trace := [EvFactory (inl 7%nat); EvIsUsable 7%nat true;
               EvCallback 7%nat (Panics 3); EvReset 7%nat] |}.

(** [fresh 2 1] with a [Call] that found the channel empty and enters
    [incAuto]. *)
Definition growing : state :=
  {| pool := {| srcs := []; srcs_closed := false; capacity := 2;
                maxIdle := 1; len := 0; gctime := GC_TIME; released := false;
                writer := None; readers := 0%nat |};
     threads := [gc_isReleased_RLock; incAuto_Lock];
     trace := [] |}.

(** [fresh 2 1] with a [Call] that made and borrowed resource 7 and is
    about to call the callback. *)
Definition borrowed7 : state :=
  {| pool := {| srcs := []; srcs_closed := false; capacity := 2;
                maxIdle := 1; len := 1; gctime := GC_TIME; released := false;
                writer := None; readers := 0%nat |};
     threads := [gc_isReleased_RLock; Call_callback 7%nat];
     trace := [EvFactory (inl 7%nat); EvIsUsable 7%nat true] |}.

(** [borrowed7] with a second [Call] that made and borrowed resource 8. *)
Definition borrowed78 : state :=
  {| pool := {| srcs := []; srcs_closed := false; capacity := 2;
                maxIdle := 1; len := 2; gctime := GC_TIME; released := false;
                writer := None; readers := 0%nat |};
     threads := [gc_isReleased_RLock; Call_callback 7%nat; Call_callback 8%nat];
     trace := [EvFactory (inl 7%nat); EvIsUsable 7%nat true;
               EvFactory (inl 8%nat); EvIsUsable 8%nat true] |}.

(** Both calls have returned, resources 7 and 8 are idle, and the
    reaper is about to start a pass. *)
Definition idle78 : state :=
  {| pool := {| srcs := [7%nat; 8%nat]; srcs_closed := false; capacity := 2;
                maxIdle := 1; len := 2; gctime := GC_TIME; released := false;
                writer := None; readers := 0%nat |};
     threads := [gc_Lock; Call_return None; Call_return None];
     trace := [EvFactory (inl 7%nat); EvIsUsable 7%nat true;
               EvFactory (inl 8%nat); EvIsUsable 8%nat true;
               EvCallback 7%nat (Returns None); EvReset 7%nat;
               EvCallback 8%nat (Returns None); EvReset 8%nat] |}.

(** [parked7] with a second [Call] that received resource 7 and is
    about to ask whether it is usable. *)
Definition probing7 : state :=
  {| pool := {| srcs := []; srcs_closed := false; capacity := 2;
                maxIdle := 1; len := 1; gctime := GC_TIME; released := false;
                writer := None; readers := 0%nat |};
     threads := [gc_isReleased_RLock; Call_return None; Call_IsUsable 7%nat];
     trace := [EvFactory (inl 7%nat); EvIsUsable 7%nat true;
               EvCallback 7%nat (Returns None); EvReset 7%nat] |}.

(** [parked7] with a [Release] that has set [released] and is about
    to enter its drain loop. *)
Definition closing7 : state :=
  {| pool := {| srcs := [7%nat]; srcs_closed := false; capacity := 2;
                maxIdle := 1; len := 1; gctime := GC_TIME; released := true;
                writer := Some 2%nat; readers := 0%nat |};
     threads := [gc_isReleased_RLock; Call_return None; Release_len];
     trace := [EvFactory (inl 7%nat); EvIsUsable 7%nat true;
               EvCallback 7%nat (Returns None); EvReset 7%nat] |}.

(** [parked7] with a [Release] that has destroyed resource 7 and
    receives once more. *)
Definition drained7 : state :=
  {| pool := {| srcs := []; srcs_closed := false; capacity := 2;
                maxIdle := 1; len := 1; gctime := GC_TIME; released := true;
                writer := Some 2%nat; readers := 0%nat |};
     threads := [gc_isReleased_RLock; Call_return None; Release_drain 0];
     trace := [EvFactory (inl 7%nat); EvIsUsable 7%nat true;
               EvCallback 7%nat (Returns None); EvReset 7%nat;
               EvDestroy 7%nat] |}.

(** The mutex while goroutine [t], alone, is at a point of the retry
    loop. *)
Definition spin_lock (t : nat) (c : pc) (p : classic) : Prop :=
  match c with
  | Call_RLock | incAuto_Lock | Call_incAuto_ret None =>
      writer p = None ∧ readers p = 0%nat
  | Call_released | Call_select | Call_default_RUnlock =>
      writer p = None ∧ readers p = 1%nat
  | incAuto_check | incAuto_Unlock None =>
      writer p = Some t ∧ readers p = 0%nat
  | _ => False
  end.

(** *** Where a resource is and what happened to it *)

Definition same (r src : Src) : Z := if decide (src = r) then 1 else 0.

(** Goroutine at [c] holds resource [r]. *)
Definition holds (r : Src) (c : pc) : Z :=
  match c with
  | Call_got_RUnlock src | Call_IsUsable src | del_Release src
  | incAuto_send src | Call_callback src
  | recover_RLock src _ | recover_released src _ | recover_Reset src _
  | recover_send src _ => same r src
  | _ => 0
  end.

(** Goroutine at [c] is about to destroy [r] in [del]. *)
Definition doomed (r : Src) (c : pc) : Z :=
  match c with
  | del_Release src => same r src
  | _ => 0
  end.

(** Goroutine at [c] is about to hand [r] to the callback. *)
Definition handing (r : Src) (c : pc) : Z :=
  match c with
  | Call_callback src => same r src
  | _ => 0
  end.

(** How often [r] is in the channel or held by a goroutine. *)
Definition occurs (r : Src) (s : state) : Z :=
  sumZ (same r) (srcs (pool s)) + sumZ (holds r) (threads s).

Definition made (r : Src) (e : event) : Z :=
  match e with
  | EvFactory (inl src) => same r src
  | _ => 0
  end.

Definition destroyed (r : Src) (e : event) : Z :=
  match e with
  | EvDestroy src => same r src
  | _ => 0
  end.

Definition refused (r : Src) (e : event) : Z :=
  match e with
  | EvIsUsable src false => same r src
  | _ => 0
  end.

(** The ledger of the resources: what is around and what was
    destroyed was made; a resource found unusable is about to be
    destroyed or was; a callback that gets a resource after it was
    found unusable gets one the factory returned twice. *)
Record Ledger (s : state) : Prop := {
  led_made : ∀ r,
    occurs r s + sumZ (destroyed r) (trace s) <= sumZ (made r) (trace s);
  led_refused : ∀ r,
    sumZ (refused r) (trace s) <=
    sumZ (doomed r) (threads s) + sumZ (destroyed r) (trace s);
  led_order : ∀ (i j : nat) r out,
    trace s !! i = Some (EvIsUsable r false) →
    trace s !! j = Some (EvCallback r out) →
    (i < j)%nat → 2 <= sumZ (made r) (trace s)
}.

(** *** A pool of capacity 0 *)

(** Program points that need a resource, a call of the factory or a
    set [released] flag to be reached from the entry of a method. *)
Definition beyond_loop (c : pc) : bool :=
  match c with
  | Call_closed_RUnlock | Call_got_RUnlock _ | Call_nil_RUnlock
  | Call_IsUsable _ | del_Release _ | del_Lock | del_dec | del_Unlock
  | incAuto_factory | incAuto_send _ | incAuto_inc
  | incAuto_Unlock (Some _) | Call_incAuto_ret (Some _)
  | Call_callback _ | recover_RLock _ _ | recover_released _ _
  | recover_Reset _ _ | recover_send _ _ | recover_RUnlock _
  | Call_return _ | panicked => true
  | _ => false
  end.

(** What a pool of capacity 0 looks like. *)
Definition Barren (s : state) : Prop :=
  srcs (pool s) = [] ∧ trace s = [] ∧
  ∀ t c, threads s !! t = Some c → beyond_loop c = false.

(** ** Further notions: locks, counts, errors and events *)

(** Program points at which the goroutine asks for the mutex. *)
Definition acquiring (c : pc) : bool :=
  match c with
  | Call_RLock | del_Lock | incAuto_Lock | recover_RLock _ _
  | Release_Lock | Len_RLock | gc_isReleased_RLock | gc_Lock => true
  | _ => false
  end.

(** Program points at which the goroutine reads [self.released]. *)
Definition tests_released (c : pc) : bool :=
  match c with
  | Call_released | recover_released _ _ | gc_isReleased_read
  | Release_released => true
  | _ => false
  end.

(** A [Call] has a resource out of the channel, for the callback. *)
Definition borrowing (c : pc) : bool :=
  match c with
  | Call_got_RUnlock _ | Call_IsUsable _ | Call_callback _
  | recover_RLock _ _ | recover_released _ _ | recover_Reset _ _
  | recover_send _ _ => true
  | _ => false
  end.

(** [del] has the resource it destroys, or has destroyed it, and has
    not yet taken it off [len]. *)
Definition deleting (c : pc) : bool :=
  match c with
  | del_Release _ | del_Lock => true
  | _ => false
  end.

(** How many goroutines are at a program point of [f]. *)
Definition count (f : pc → bool) (l : list pc) : Z :=
  sumZ (λ c, if f c then 1 else 0) l.

(** Inside [Release], after the test of the flag. *)
Definition closing (c : pc) : bool :=
  match c with
  | Release_set | Release_len | Release_drain _ => true
  | _ => false
  end.

(** The value a [Len] has read. *)
Definition len_seen (c : pc) : option Z :=
  match c with
  | Len_RUnlock n | Len_return n => Some n
  | _ => None
  end.

(** Every value read by a [Len] is a count of resources. *)
Definition LenOk (s : state) : Prop :=
  ∀ t c n, threads s !! t = Some c → len_seen c = Some n →
           0 <= n <= capacity (pool s).

(** The event passes resource [r] to the caller's code: to a method of
    the resource or to the callback. *)
Definition touches (r : Src) (e : event) : bool :=
  match e with
  | EvIsUsable src _ | EvReset src | EvDestroy src | EvCallback src _ =>
      bool_decide (src = r)
  | EvFactory _ => false
  end.

(** The resources touched are resources made, and one touched after
    it was destroyed was made twice. *)
Record Alive (s : state) : Prop := {
  alive_made : ∀ (j : nat) r e,
    trace s !! j = Some e → touches r e = true →
    1 <= sumZ (made r) (trace s);
  alive_final : ∀ (i j : nat) r e,
    trace s !! i = Some (EvDestroy r) →
    trace s !! j = Some e → touches r e = true →
    (i < j)%nat → 2 <= sumZ (made r) (trace s)
}.

(** The factory returned error [e]. *)
Definition factory_failed (tr : list event) (err : option error) : Prop :=
  ∃ e, err = Some e ∧ EvFactory (inr e) ∈ tr.

(** The callback ended on resource [src] with what [Call] reports as
    [err]. *)
Definition callback_ended (tr : list event) (src : Src) (err : option error)
  : Prop :=
  ∃ out, err = callback_error out ∧ EvCallback src out ∈ tr.

(** Where the error carried at a program point comes from. *)
Definition err_origin (tr : list event) (c : pc) : Prop :=
  match c with
  | incAuto_Unlock (Some e) | Call_incAuto_ret (Some e) =>
      factory_failed tr (Some e)
  | recover_RLock src err | recover_released src err
  | recover_Reset src err | recover_send src err =>
      callback_ended tr src err
  | recover_RUnlock err | Call_return err =>
      factory_failed tr err ∨ ∃ src, callback_ended tr src err
  | _ => True
  end.

Definition Origins (s : state) : Prop :=
  ∀ t c, threads s !! t = Some c → err_origin (trace s) c.

(** The factory fails with error 5. *)
Definition failing : oracle :=
  {| o_usable := true; o_factory := inr (UserError 5);
     o_callback := Returns None |}.

(** [parked7] with a [Len] that has returned 1. *)
Definition counted7 : state :=
  {| pool := pool parked7;
     threads := [gc_isReleased_RLock; Call_return None; Len_return 1];
     trace := trace parked7 |}.

(** [parked7] with a second [Call] about to test the flag. *)
Definition testing7 : state :=
  {| pool := with_readers 1 (pool parked7);
     threads := [gc_isReleased_RLock; Call_return None; Call_released];
     trace := trace parked7 |}.

(** [borrowed7] after the callback: the [Call] is about to park
    resource 7. *)
Definition parking7 : state :=
  {| pool := with_readers 1 (pool borrowed7);
     threads := [gc_isReleased_RLock; recover_send 7%nat None];
     trace := trace borrowed7 ++
              [EvCallback 7%nat (Returns None); EvReset 7%nat] |}.

(** * Proofs *)

(** ** Arithmetic of [wrap] *)

Lemma wrap_id z : is_int z → wrap z = z.
Proof.
  unfold is_int, int_min, int_max, wrap. intros H.
  rewrite Z.mod_small; lia.
Qed.

Lemma wrap_is_int z : is_int (wrap z).
Proof.
  unfold is_int, int_min, int_max, wrap.
  pose proof (Z.mod_pos_bound (z + 2 ^ 63) (2 ^ 64)). lia.
Qed.

(** ** Sums over the goroutines *)

Lemma sumZ_app {A} (f : A → Z) l1 l2 :
  sumZ f (l1 ++ l2) = sumZ f l1 + sumZ f l2.
Proof. induction l1 as [|x l1 IH]; simpl; [done | rewrite IH; lia]. Qed.

Lemma sumZ_insert {A} (f : A → Z) l i x y :
  l !! i = Some x → sumZ f (<[i:=y]> l) = sumZ f l - f x + f y.
Proof.
  revert i. induction l as [|z l IH]; intros [|i] Hi; simplify_eq/=.
  - lia.
  - rewrite (IH i Hi). lia.
Qed.

Lemma sumZ_nonneg {A} (f : A → Z) l :
  (∀ j y, l !! j = Some y → 0 <= f y) → 0 <= sumZ f l.
Proof.
  induction l as [|z l IH]; intros Hpos; simpl; [lia|].
  pose proof (Hpos 0%nat z eq_refl).
  assert (0 <= sumZ f l); [|lia].
  apply IH. intros j y Hj. by apply (Hpos (S j) y).
Qed.

(** An entry is below the sum when no other entry is negative. *)
Lemma sumZ_lookup_le {A} (f : A → Z) l i x :
  (∀ j y, l !! j = Some y → j ≠ i → 0 <= f y) →
  l !! i = Some x → f x <= sumZ f l.
Proof.
  revert i. induction l as [|z l IH]; intros [|i] Hpos Hi; simplify_eq/=.
  - assert (0 <= sumZ f l); [|lia].
    apply sumZ_nonneg. intros j y Hj. by apply (Hpos (S j) y).
  - pose proof (Hpos 0%nat z eq_refl ltac:(done)).
    assert (f x <= sumZ f l); [|lia].
    apply (IH i); [|done]. intros j y Hj Hne.
    apply (Hpos (S j) y); [done | congruence].
Qed.

Lemma sumZ_mono {A} (f g : A → Z) l :
  (∀ x, f x <= g x) → sumZ f l <= sumZ g l.
Proof.
  intros Hfg. induction l as [|x l IH]; simpl; [lia|].
  pose proof (Hfg x). lia.
Qed.

Lemma sumZ_add {A} (f g : A → Z) l :
  sumZ (λ x, f x + g x) l = sumZ f l + sumZ g l.
Proof. induction l as [|x l IH]; simpl; lia. Qed.

Lemma sumZ_elem {A} (f : A → Z) l i x :
  (∀ y, 0 <= f y) → l !! i = Some x → f x <= sumZ f l.
Proof. intros Hpos. apply sumZ_lookup_le. intros; apply Hpos. Qed.

(** ** The invariant holds in every state of a pool *)

Lemma reading_nonneg c : 0 <= reading c.
Proof. unfold reading. destruct (holdsR c); lia. Qed.

Lemma weight_neg_holdsW c : weight c < 0 → holdsW c = true.
Proof. destruct c; simpl; try lia; done. Qed.

(** What the invariant says about the goroutine [t] at [c]. *)
Section facts.
Context (s : state) (HI : Inv s) (t : nat) (c : pc).
Context (Ht : threads s !! t = Some c).

Lemma writer_here : holdsW c = true → writer (pool s) = Some t.
Proof. apply (inv_pc s HI t c Ht). Qed.

Lemma here_ok : pc_ok (pool s) c.
Proof. apply (inv_pc s HI t c Ht). Qed.

Lemma reader_here :
  holdsR c = true → writer (pool s) = None ∧ (0 < readers (pool s))%nat.
Proof.
  intros HR.
  assert (1 <= Z.of_nat (readers (pool s))) as Hr.
  { rewrite (inv_readers s HI).
    replace 1 with (reading c) by (unfold reading; by rewrite HR).
    apply (sumZ_lookup_le reading _ t); [|done].
    intros; apply reading_nonneg. }
  split; [|lia].
  destruct (writer (pool s)) as [w|] eqn:Hw; [|done].
  pose proof (inv_excl s HI w Hw). lia.
Qed.

Lemma writer_alone t' c' :
  holdsW c = true → threads s !! t' = Some c' → t' ≠ t →
  holdsW c' = false ∧ 0 <= weight c'.
Proof.
  intros HW Ht' Hne.
  assert (holdsW c' = false) as HW'.
  { destruct (holdsW c') eqn:HW'; [|done].
    pose proof (writer_here HW) as H1.
    pose proof (proj1 (inv_pc s HI t' c' Ht') HW') as H2. congruence. }
  split; [done|].
  destruct (Z.lt_ge_cases (weight c') 0) as [Hneg|]; [|lia].
  apply weight_neg_holdsW in Hneg. congruence.
Qed.

Lemma writer_weight :
  holdsW c = true → weight c <= sumZ weight (threads s).
Proof.
  intros HW. apply (sumZ_lookup_le weight _ t); [|done].
  intros j y Hj Hne. by eapply writer_alone.
Qed.

Lemma writer_open :
  holdsW c = true → draining c = false → released (pool s) = false.
Proof.
  intros HW Hd. destruct (released (pool s)) eqn:Hrel; [|done].
  destruct (inv_drainer s HI Hrel) as (t0 & c0 & Hw & Ht0 & Hd0).
  rewrite (writer_here HW) in Hw. simplify_eq. congruence.
Qed.

Lemma reader_open : holdsR c = true → released (pool s) = false.
Proof.
  intros HR. destruct (released (pool s)) eqn:Hrel; [|done].
  destruct (inv_drainer s HI Hrel) as (t0 & c0 & Hw & _).
  destruct (reader_here HR). congruence.
Qed.
End facts.

(** All the ways the statement at a program point can run. *)
Ltac exec_cases H :=
  cbn in H; unfold RLock, Lock, receive, send in H;
  repeat (case_match; simplify_eq/=); simplify_eq/=.


Lemma pc_ok_free c p p' : holdsW c = false → pc_ok p c → pc_ok p' c.
Proof. destruct c; simpl; done. Qed.

(** The facts of [Section facts] for the program point at hand. *)
Ltac use_true :=
  repeat match goal with
  | H : ?b = ?b → _ |- _ => specialize (H eq_refl)
  | H : false = true → _ |- _ => clear H
  | H : true = false → _ |- _ => clear H
  | H : _ ∧ _ |- _ => destruct H
  end.

Ltac facts HI Ht :=
  pose proof (writer_here _ HI _ _ Ht) as Hwh;
  pose proof (here_ok _ HI _ _ Ht) as Hok;
  pose proof (reader_here _ HI _ _ Ht) as Hrh;
  pose proof (writer_weight _ HI _ _ Ht) as Hww;
  pose proof (writer_open _ HI _ _ Ht) as Hwo;
  pose proof (reader_open _ HI _ _ Ht) as Hro;
  simpl in Hwh, Hok, Hrh, Hww, Hwo, Hro; use_true.

(** Linear arithmetic over [len], the channel and [wrap]. *)
Ltac arith :=
  unfold chan_len in *; simpl;
  repeat match goal with
  | H : srcs ?p = _, H' : context [length (srcs ?p)] |- _ =>
      rewrite H in H'; simpl in H'
  | H : srcs ?p = _ |- context [length (srcs ?p)] => rewrite H
  | H : (_ <? _) = true |- _ => apply Z.ltb_lt in H
  | H : (_ <? _) = false |- _ => apply Z.ltb_ge in H
  | H : (_ <=? _) = true |- _ => apply Z.leb_le in H
  | H : (_ <=? _) = false |- _ => apply Z.leb_gt in H
  end;
  rewrite ?length_app; simpl;
  rewrite ?wrap_id by (unfold is_int, int_min, int_max in *; lia);
  unfold is_int, int_min, int_max in *; try lia.

(** One statement of goroutine [t] keeps each part of the invariant. *)
Section preserve.
Context (s : state) (HI : Inv s) (t : nat) (o : oracle) (c : pc).
Context (p' : classic) (c' : pc) (evs : list event).
Context (Ht : threads s !! t = Some c).
Context (He : exec t o (pool s) c = Some (p', c', evs)).

(** While another goroutine is inside [Lock], a statement leaves the
    struct alone. *)
Lemma exec_frame t' c'' :
  t' ≠ t → threads s !! t' = Some c'' → holdsW c'' = true → p' = pool s.
Proof using HI Ht He.
  intros Hne Ht' HW'.
  pose proof (writer_here _ HI _ _ Ht' HW') as Hw'.
  destruct c; facts HI Ht; exec_cases He; try congruence.
Qed.

Lemma exec_open : srcs_closed p' = false.
Proof using HI Ht He.
  pose proof (inv_open s HI).
  destruct c; facts HI Ht; exec_cases He; try done.
Qed.

Lemma exec_cap :
  capacity p' = capacity (pool s) ∧ maxIdle p' = maxIdle (pool s).
Proof using Ht He.
  clear HI. destruct c; exec_cases He; try done.
Qed.

Lemma exec_len : int_min <= len p' <= capacity p'.
Proof using HI Ht He.
  pose proof (inv_len s HI). pose proof (inv_cap s HI).
  pose proof (inv_count s HI) as Hcount.
  assert (0 <= chan_len (pool s)) by (unfold chan_len; lia).
  destruct c; facts HI Ht; exec_cases He; try done.
  all: try specialize (Hcount ltac:(done)).
  all: arith.
Qed.

Lemma exec_chan : chan_len p' <= capacity p'.
Proof using HI Ht He.
  pose proof (inv_chan s HI) as Hch.
  destruct c; exec_cases He; try done.
  all: arith.
Qed.

Lemma exec_count :
  released p' = false →
  len p' = chan_len p' + sumZ weight (<[t := c']> (threads s)).
Proof using HI Ht He.
  pose proof (inv_len s HI). pose proof (inv_cap s HI).
  pose proof (inv_count s HI) as Hcount.
  pose proof (inv_open s HI).
  rewrite (sumZ_insert _ _ _ _ _ Ht).
  destruct c; facts HI Ht; exec_cases He; try done.
  all: intros Hrel; try congruence; try specialize (Hcount ltac:(done)).
  all: arith.
Qed.

Lemma exec_drainer :
  released p' = true →
  ∃ t0 c0, writer p' = Some t0 ∧ <[t := c']> (threads s) !! t0 = Some c0 ∧
           draining c0 = true.
Proof using HI Ht He.
  intros Hrel'. pose proof (inv_open s HI).
  pose proof (lookup_lt_Some _ _ _ Ht) as Hlt.
  destruct (released (pool s)) eqn:Hrel.
  - destruct (inv_drainer s HI Hrel) as (t0 & c0 & Hw & Ht0 & Hd0).
    destruct (decide (t0 = t)) as [->|Hne].
    + exists t. simplify_eq. rewrite list_lookup_insert_eq by done.
      destruct c; try done; facts HI Ht; exec_cases He;
        try congruence; try (by eauto); arith.
    + exists t0, c0. rewrite list_lookup_insert_ne by done.
      assert (holdsW c0 = true) as HW0 by (by destruct c0).
      by rewrite (exec_frame t0 c0).
  - exists t, c'. rewrite list_lookup_insert_eq by done.
    destruct c; facts HI Ht; exec_cases He; try congruence; done.
Qed.

Lemma exec_excl w : writer p' = Some w → readers p' = 0%nat.
Proof using HI Ht He.
  pose proof (inv_excl s HI) as Hex.
  destruct c; facts HI Ht; exec_cases He; try congruence; eauto.
Qed.

Lemma exec_readers :
  Z.of_nat (readers p') = sumZ reading (<[t := c']> (threads s)).
Proof using HI Ht He.
  pose proof (inv_readers s HI) as Hrd.
  rewrite (sumZ_insert _ _ _ _ _ Ht).
  revert Hrd. generalize (sumZ reading (threads s)). intros R Hrd.
  destruct c; facts HI Ht; exec_cases He; unfold reading; simpl; lia.
Qed.

Lemma exec_pc t' c'' :
  <[t := c']> (threads s) !! t' = Some c'' →
  (holdsW c'' = true → writer p' = Some t') ∧ pc_ok p' c''.
Proof using HI Ht He.
  pose proof (lookup_lt_Some _ _ _ Ht) as Hlt.
  pose proof (inv_open s HI). pose proof (inv_cap s HI).
  pose proof (inv_chan s HI).
  destruct (decide (t' = t)) as [->|Hne].
  - rewrite list_lookup_insert_eq by done. intros [= <-].
    destruct c; facts HI Ht; exec_cases He; simpl;
      (split; [try done; try congruence | try done; try congruence]).
    all: try (pose proof (wrap_is_int (chan_len (pool s) - maxIdle (pool s)))).
    all: try (split; [done|]).
    all: arith.
  - rewrite list_lookup_insert_ne by done. intros Ht'.
    destruct (inv_pc s HI t' c'' Ht') as [HW Hok].
    destruct (holdsW c'') eqn:HW'.
    + rewrite (exec_frame t' c'') by done. auto.
    + split; [done|]. by eapply pc_ok_free.
Qed.
End preserve.

Lemma step_inv s t o s' :
  step t o s = Some s' →
  ∃ c p' c' evs, threads s !! t = Some c ∧
    exec t o (pool s) c = Some (p', c', evs) ∧ s' = moved t c' p' evs s.
Proof.
  unfold step. intros Hs.
  destruct (threads s !! t) as [c|] eqn:Ht; [|done]. simpl in Hs.
  destruct (exec t o (pool s) c) as [[[p' c'] evs]|] eqn:He; [|done].
  simplify_eq/=. by exists c, p', c', evs.
Qed.

Lemma Inv_step s t o s' : Inv s → step t o s = Some s' → Inv s'.
Proof.
  intros HI Hs.
  apply step_inv in Hs as (c & p' & c' & evs & Ht & He & ->).
  destruct (exec_cap s t o c p' c' evs Ht He) as [Hc Hm].
  split; simpl.
  - by eapply exec_open.
  - rewrite Hc. apply HI.
  - rewrite Hm. apply HI.
  - by eapply exec_len.
  - by eapply exec_chan.
  - by eapply exec_count.
  - by eapply exec_drainer.
  - intros w. by eapply exec_excl.
  - by eapply exec_readers.
  - intros t' c''. by eapply exec_pc.
Qed.

Lemma Inv_go s c : Inv s → entry c → Inv (go c s).
Proof.
  intros HI Hc.
  assert (holdsW c = false ∧ holdsR c = false ∧ weight c = 0 ∧
          draining c = false ∧ ∀ p, pc_ok p c) as (HW & HR & Hwt & Hd & Hok)
    by (destruct Hc; done).
  split; simpl; try apply HI.
  - intros Hrel. rewrite sumZ_app. simpl. rewrite Hwt.
    rewrite (inv_count s HI Hrel). lia.
  - intros Hrel. destruct (inv_drainer s HI Hrel) as (t0 & c0 & Hw & Ht0 & Hd0).
    exists t0, c0. split_and!; [done| |done]. by apply lookup_app_l_Some.
  - rewrite sumZ_app. simpl. unfold reading at 2. rewrite HR.
    rewrite (inv_readers s HI). lia.
  - intros t c0 Ht. apply lookup_app_Some in Ht as [Ht|[_ Ht]].
    + by apply HI.
    + destruct (t - length (threads s))%nat; simplify_eq/=.
      split; [congruence | done].
Qed.

Lemma Inv_ClassicPool capacity maxIdle gctime s :
  is_int capacity → is_int maxIdle →
  ClassicPool capacity maxIdle gctime = Some s → Inv s.
Proof.
  unfold ClassicPool, is_int, int_min, int_max. intros Hc Hm Hs.
  case_match; simplify_eq. apply Z.ltb_ge in H.
  split; simpl; unfold chan_len, is_int, int_min, int_max; simpl;
    try done; try lia.
  intros [|[|t]] c Ht; simplify_eq/=. done.
Qed.

Lemma Inv_Steps s s' : Inv s → Steps s s' → Inv s'.
Proof.
  intros HI Hs. induction Hs as [|s1 s2 s3 _ IH Hstep]; [done|].
  specialize (IH HI). destruct Hstep; eauto using Inv_step, Inv_go.
Qed.

Lemma reachable_Inv s : reachable s → Inv s.
Proof.
  intros (cap & mi & gct & s0 & Hc & Hm & H0 & Hs).
  apply (Inv_Steps s0); [|done]. by apply (Inv_ClassicPool cap mi gct).
Qed.
(** ** One goroutine on its own *)

Lemma Steps_trans s1 s2 s3 : Steps s1 s2 → Steps s2 s3 → Steps s1 s3.
Proof.
  intros H12 H23. induction H23 as [|s2 s3 s4 _ IH Hstep]; [done|].
  econstructor; [by apply IH | done].
Qed.

Lemma steps_Steps t os s s' : steps t os s = Some s' → Steps s s'.
Proof.
  revert s. induction os as [|o os IH]; intros s H; simplify_eq/=.
  - constructor.
  - destruct (step t o s) as [s1|] eqn:Hs; [|done]. simpl in H.
    apply (Steps_trans _ s1); [|by apply IH].
    econstructor; [constructor|]. by econstructor.
Qed.

Lemma reachable_steps t os s s' :
  reachable s → steps t os s = Some s' → reachable s'.
Proof.
  intros (cap & mi & gct & s0 & Hc & Hm & H0 & Hs) Hrun.
  exists cap, mi, gct, s0. split_and!; try done.
  eapply Steps_trans; [done|]. by eapply steps_Steps.
Qed.

Lemma reachable_go c s : reachable s → entry c → reachable (go c s).
Proof.
  intros (cap & mi & gct & s0 & Hc & Hm & H0 & Hs) Hent.
  exists cap, mi, gct, s0. split_and!; try done.
  econstructor; [done|]. by constructor.
Qed.

Lemma reachable_fresh capacity maxIdle :
  0 <= capacity → is_int capacity → is_int maxIdle →
  reachable (fresh capacity maxIdle).
Proof.
  intros H0 Hc Hm. exists capacity, maxIdle, [], (fresh capacity maxIdle).
  split_and!; try done; [|constructor].
  unfold ClassicPool. apply Z.ltb_ge in H0. by rewrite H0.
Qed.

Lemma steps_app t os1 os2 s :
  steps t (os1 ++ os2) s = s' ← steps t os1 s; steps t os2 s'.
Proof.
  revert s. induction os1 as [|o os1 IH]; intros s; simpl; [done|].
  destruct (step t o s); simpl; [apply IH | done].
Qed.

(** The next statement of goroutine [t], when it is at [c]. *)
Lemma steps_cons_at t o os s c p' c' evs :
  threads s !! t = Some c →
  exec t o (pool s) c = Some (p', c', evs) →
  steps t (o :: os) s = steps t os (moved t c' p' evs s).
Proof. intros Ht He. simpl. unfold step. rewrite Ht. simpl. by rewrite He. Qed.

Lemma moved_lookup t c p evs s c0 :
  threads s !! t = Some c0 → threads (moved t c p evs s) !! t = Some c.
Proof.
  intros Ht. simpl. apply list_lookup_insert_eq. by eapply lookup_lt_Some.
Qed.

Lemma moved_moved t c1 p1 e1 c2 p2 e2 s :
  moved t c2 p2 e2 (moved t c1 p1 e1 s) = moved t c2 p2 (e1 ++ e2) s.
Proof.
  unfold moved. simpl. by rewrite list_insert_insert_eq, app_assoc.
Qed.

Lemma moved_nil t c s :
  moved t c (pool s) [] s =
  {| pool := pool s; threads := <[t := c]> (threads s); trace := trace s |}.
Proof. unfold moved. by rewrite app_nil_r. Qed.

(** When nobody is inside [Lock], the pool is not closed and the
    channel holds no more than [len] counts. *)
Lemma free_facts s t c :
  Inv s → writer (pool s) = None → threads s !! t = Some c →
  released (pool s) = false ∧ 0 <= weight c ∧
  chan_len (pool s) + weight c <= len (pool s).
Proof.
  intros HI Hw Ht.
  assert (released (pool s) = false) as Hrel.
  { destruct (released (pool s)) eqn:Hrel; [|done].
    destruct (inv_drainer s HI Hrel) as (t0 & c0 & Hw0 & _). congruence. }
  assert (∀ j y, threads s !! j = Some y → 0 <= weight y) as Hpos.
  { intros j y Hj. destruct (Z.lt_ge_cases (weight y) 0) as [Hneg|]; [|lia].
    apply weight_neg_holdsW in Hneg.
    pose proof (proj1 (inv_pc s HI j y Hj) Hneg). congruence. }
  split_and!; [done|by eapply Hpos|].
  rewrite (inv_count s HI Hrel).
  assert (weight c <= sumZ weight (threads s)); [|lia].
  apply (sumZ_lookup_le weight _ t); [|done]. intros j y Hj _. by eapply Hpos.
Qed.

(** Symbolic execution of the next statement. *)
Ltac run1 :=
  erewrite steps_cons_at;
  [ | first [ eassumption | eapply moved_lookup; eassumption ]
    | cbn; reflexivity ];
  rewrite ?moved_moved.


(** ** The first [Call] on a fresh pool *)

Example first_Call :
  steps 1 (replicate 22 (makes 7)) (go Call_RLock (fresh 2 1)) = Some parked7.
Proof. reflexivity. Qed.

Lemma reachable_parked7 : reachable parked7.
Proof.
  apply (reachable_steps 1 (replicate 22 (makes 7))
           (go Call_RLock (fresh 2 1))); [|reflexivity].
  apply reachable_go; [|constructor].
  apply reachable_fresh; unfold is_int, int_min, int_max; lia.
Qed.

(** ** [len] and the capacity *)

Lemma creations_app tr1 tr2 :
  creations (tr1 ++ tr2) = creations tr1 ++ creations tr2.
Proof.
  induction tr1 as [|e tr1 IH]; simpl; [done|].
  destruct e; simpl; by rewrite ?IH.
Qed.

Lemma exec_len_step s t o c p' c' evs :
  Inv s → threads s !! t = Some c →
  exec t o (pool s) c = Some (p', c', evs) →
  (len p' <= len (pool s) ∨
   (c = incAuto_inc ∧ len (pool s) < capacity (pool s) ∧
    len p' = len (pool s) + 1)) ∧
  (creations evs = [] ∨
   (c = incAuto_factory ∧ len (pool s) < capacity (pool s))).
Proof.
  intros HI Ht He.
  pose proof (inv_len s HI). pose proof (inv_cap s HI).
  pose proof (inv_count s HI) as Hcount.
  assert (0 <= chan_len (pool s)) by (unfold chan_len; lia).
  destruct c; facts HI Ht; exec_cases He; try done;
    try specialize (Hcount ltac:(done));
    (split; [|first [by left | by right]]);
    first [ left; arith; fail
          | right; split_and!; [done| |]; arith; fail ].
Qed.

(** C1: in every state a pool made by [ClassicPool] can reach, through
    any interleaving of [Call], [Release], [Len] and the reaper, [len]
    is at most [capacity].  A step raises [len] only at the increment
    of [incAuto], by one and while [len < capacity]; the factory is
    called only in [incAuto] and only while [len < capacity]. *)
Theorem len_never_exceeds_capacity s :
  reachable s →
  len (pool s) <= capacity (pool s) ∧
  ∀ s', Step s s' →
    (len (pool s') <= len (pool s) ∨
     (len (pool s) < capacity (pool s) ∧ len (pool s') = len (pool s) + 1 ∧
      ∃ t, threads s !! t = Some incAuto_inc)) ∧
    (creations (trace s') = creations (trace s) ∨
     (len (pool s) < capacity (pool s) ∧
      ∃ t, threads s !! t = Some incAuto_factory)).
Proof.
  intros Hr. pose proof (reachable_Inv s Hr) as HI.
  split; [apply HI|]. intros s' Hstep.
  destruct Hstep as [t o s s' Hs|c s Hc]; [|split; left; simpl; [lia|done]].
  apply step_inv in Hs as (c & p' & c' & evs & Ht & He & ->).
  destruct (exec_len_step s t o c p' c' evs HI Ht He) as [Hlen Hfac].
  split.
  - destruct Hlen as [?|(-> & ? & ?)]; [by left|right; eauto].
  - simpl. rewrite creations_app.
    destruct Hfac as [->|(-> & ?)]; [left; by rewrite app_nil_r|right; eauto].
Qed.

Lemma len_never_exceeds_capacity_witness :
  reachable parked7 ∧ len (pool parked7) <= capacity (pool parked7).
Proof.
  split; [apply reachable_parked7|].
  apply (len_never_exceeds_capacity parked7 reachable_parked7).
Defined.

(** ** [Release] *)

(** No call of [Release] ever returns, and a closed pool stays
    write-locked by the goroutine that closed it. *)
Lemma Release_never_returns s t :
  reachable s → threads s !! t ≠ Some Release_return.
Proof.
  intros Hr Ht. apply (here_ok s (reachable_Inv s Hr) t _ Ht).
Qed.

Lemma released_locked s :
  reachable s → released (pool s) = true →
  ∃ t i, writer (pool s) = Some t ∧
         (threads s !! t = Some Release_len ∨
          threads s !! t = Some (Release_drain i) ∧ i = chan_len (pool s)).
Proof.
  intros Hr Hrel. pose proof (reachable_Inv s Hr) as HI.
  destruct (inv_drainer s HI Hrel) as (t & c & Hw & Ht & Hd).
  pose proof (here_ok s HI t c Ht) as Hok.
  destruct c; try done; simpl in Hok.
  - exists t, 0. eauto.
  - exists t, i. destruct Hok. eauto.
Qed.

(** Once the drain loop of [Release] has emptied the channel, the
    struct never changes again and the goroutine stays in the loop. *)
Lemma Step_drained s s' t i :
  Inv s → srcs (pool s) = [] →
  threads s !! t = Some (Release_drain i) → Step s s' →
  pool s' = pool s ∧ threads s' !! t = Some (Release_drain i).
Proof.
  intros HI Hsrcs Ht Hstep. revert HI Hsrcs Ht.
  destruct Hstep as [t1 o s s' Hs|c s Hc]; intros HI Hsrcs Ht.
  - apply step_inv in Hs as (c & p' & c' & evs & Ht1 & He & ->). simpl.
    destruct (decide (t1 = t)) as [->|Hne].
    + exfalso. rewrite Ht in Ht1. injection Ht1 as <-.
      destruct (here_ok s HI t _ Ht) as [_ ->].
      pose proof (inv_open s HI) as Hopen.
      cbn in He. unfold receive, chan_len in He.
      rewrite Hsrcs, Hopen in He. done.
    + rewrite list_lookup_insert_ne by done. split; [|done].
      by apply (exec_frame s HI t1 o c p' c' evs Ht1 He t (Release_drain i)).
  - split; [done|]. by apply lookup_app_l_Some.
Qed.

Lemma Steps_drained s s' t i :
  Inv s → srcs (pool s) = [] →
  threads s !! t = Some (Release_drain i) → Steps s s' →
  pool s' = pool s ∧ threads s' !! t = Some (Release_drain i).
Proof.
  intros HI Hsrcs Ht Hs.
  induction Hs as [|s1 s2 s3 Hs12 IH Hstep]; [done|].
  destruct (IH HI Hsrcs Ht) as [Hp Ht2].
  destruct (Step_drained s2 s3 t i) as [Hp3 Ht3]; try done.
  - by eapply Inv_Steps.
  - by rewrite Hp.
  - split; [congruence|done].
Qed.

(** C2: [Release] on the pool that holds the idle resource 7.  After
    five statements it has set [released], received and destroyed
    resource 7, and waits for one more resource on the empty channel,
    with the write lock held: [len] is still 1 and the channel is not
    closed.  No goroutine has a step left, and whatever goroutines
    arrive later, the struct stays as it is and this [Release] stays
    in its loop: it never returns. *)
Theorem Release_blocks_after_drain :
  steps 2 (replicate 5 (makes 7)) (go Release_Lock parked7) = Some drained7 ∧
  (∀ t o, step t o drained7 = None) ∧
  ∀ s', Steps drained7 s' →
    pool s' = pool drained7 ∧ threads s' !! 2%nat = Some (Release_drain 0).
Proof.
  assert (steps 2 (replicate 5 (makes 7)) (go Release_Lock parked7)
          = Some drained7) as Hrun by reflexivity.
  split_and!; [done| |].
  - intros [|[|[|t]]] o; reflexivity.
  - intros s' Hs. apply (Steps_drained drained7); try done.
    apply reachable_Inv. eapply reachable_steps; [|exact Hrun].
    apply reachable_go; [apply reachable_parked7|constructor].
Qed.

(** ** [Call] on a closed pool *)

Lemma with_readers_same p : with_readers (readers p) p = p.
Proof. by destruct p. Qed.


(** C3: a [Call] is entered on a pool whose [released] flag is set.
    However far it runs, nothing is added to the trace (neither the
    factory nor the callback is called), the struct is what it was up
    to the count of readers, and the only error it can return is
    [releasedError].  When nobody is inside the mutex it does return
    it, after three statements ([RLock], the test of the flag,
    [RUnlock]), and the struct is what it was. *)
Theorem Call_on_released_pool s t :
  threads s !! t = Some Call_RLock →
  released (pool s) = true →
  (∀ os s', steps t os s = Some s' →
     trace s' = trace s ∧
     with_readers (readers (pool s)) (pool s') = pool s ∧
     ∀ err, threads s' !! t = Some (Call_return err) →
            err = Some releasedError) ∧
  (writer (pool s) = None →
   readers (pool s) = 0%nat →
   ∀ o1 o2 o3,
     steps t [o1; o2; o3] s =
     Some {| pool := pool s;
             threads := <[t := Call_return (Some releasedError)]> (threads s);
             trace := trace s |}).
Proof.
  intros Ht Hrel. split.
  - intros os s' Hrun.
    destruct s as [[sr cl cap mi ln gct rel w rd] l tr]; simpl in * |-; subst.
    pose proof (lookup_lt_Some _ _ _ Ht) as Hlt.
    destruct os as [|o1 os].
    { simplify_eq/=. split_and!; [done..|]. intros err He. congruence. }
    destruct w as [w|].
    { simpl in Hrun. unfold step in Hrun. simpl in Hrun.
      rewrite Ht in Hrun. done. }
    revert Hrun. run1. destruct os as [|o2 os].
    { intros [= <-]. simpl. rewrite list_lookup_insert_eq by done.
      split_and!; [by rewrite app_nil_r|done|]. intros err He. congruence. }
    run1. destruct os as [|o3 os].
    { intros [= <-]. simpl. rewrite list_lookup_insert_eq by done.
      split_and!; [by rewrite app_nil_r|done|]. intros err He. congruence. }
    run1. destruct os as [|o4 os].
    { intros [= <-]. simpl. rewrite list_lookup_insert_eq by done.
      split_and!; [by rewrite app_nil_r|done|]. intros err He. congruence. }
    simpl. unfold step. simpl. rewrite list_lookup_insert_eq by done. done.
  - intros Hw Hrd o1 o2 o3. rewrite <- moved_nil.
    destruct s as [[sr cl cap mi ln gct rel w rd] l tr]; simpl in * |-; subst.
    run1. run1. run1. reflexivity.
Qed.

Lemma Call_on_released_pool_witness :
  threads closed21 !! 2%nat = Some Call_RLock ∧
  released (pool closed21) = true ∧
  writer (pool closed21) = None ∧
  readers (pool closed21) = 0%nat ∧
  steps 2 [faulty; faulty; faulty] closed21 =
  Some {| pool := pool closed21;
          threads := <[2%nat := Call_return (Some releasedError)]>
                       (threads closed21);
          trace := trace closed21 |}.
Proof.
  split_and!; [reflexivity..|].
  apply (Call_on_released_pool closed21 2); reflexivity.
Defined.

(** ** Growth *)

(** The next statement, with its guard decided by [tac]. *)
Ltac run1_by tac :=
  erewrite steps_cons_at;
  [ | first [ eassumption | eapply moved_lookup; eassumption ]
    | cbn; unfold send, receive, chan_len; cbn; tac; reflexivity ];
  rewrite ?moved_moved.

(** C4: [incAuto], entered with the mutex free, runs to its return and
    does what its contract says: nothing when [len >= capacity];
    otherwise one call of the factory, and either the error of the
    factory with the struct unchanged, or the new resource at the back
    of the channel and [len] one higher. *)
Theorem incAuto_meets_contract s t o :
  reachable s →
  threads s !! t = Some incAuto_Lock →
  writer (pool s) = None →
  readers (pool s) = 0%nat →
  ∃ n, steps t (replicate n o) s =
       Some (moved t (Call_incAuto_ret (incAuto_contract (o_factory o) (pool s)).1.2)
               (incAuto_contract (o_factory o) (pool s)).1.1
               (incAuto_contract (o_factory o) (pool s)).2 s).
Proof.
  intros Hr Ht Hw Hrd. pose proof (reachable_Inv s Hr) as HI.
  destruct (free_facts s t _ HI Hw Ht) as (Hrel & _ & Hch).
  pose proof (inv_open s HI) as Hopen. pose proof (inv_cap s HI) as Hcap.
  pose proof (inv_len s HI) as Hlen.
  unfold incAuto_contract. clear Hr HI.
  destruct s as [[sr cl cap mi ln gct rel w rd] l tr];
    unfold chan_len in *; simpl in * |-; subst.
  cbn [pool capacity len srcs].
  destruct (cap <=? ln) eqn:Hfull.
  - exists 3%nat. simpl replicate.
    run1. run1_by ltac:(rewrite Hfull). run1. reflexivity.
  - apply Z.leb_gt in Hfull. destruct (o_factory o) as [src|err] eqn:Hfac.
    + exists 6%nat. simpl replicate.
      run1. run1_by ltac:(rewrite (proj2 (Z.leb_gt _ _) Hfull)).
      run1_by ltac:(rewrite Hfac).
      run1_by ltac:(rewrite (proj2 (Z.ltb_lt (Z.of_nat (length sr)) cap))
                      by lia).
      run1_by ltac:(rewrite wrap_id
                      by (unfold is_int, int_min, int_max in *; lia)).
      run1. reflexivity.
    + exists 4%nat. simpl replicate.
      run1. run1_by ltac:(rewrite (proj2 (Z.leb_gt _ _) Hfull)).
      run1_by ltac:(rewrite Hfac). run1. reflexivity.
Qed.

(** ** The reaper *)

Lemma steps_app_Some t os1 os2 s s1 :
  steps t os1 s = Some s1 → steps t (os1 ++ os2) s = steps t os2 s1.
Proof. intros H. by rewrite steps_app, H. Qed.

Lemma with_srcs_same p : with_srcs (srcs p) p = p.
Proof. by destruct p. Qed.

Lemma creations_destroys l : creations (EvDestroy <$> l) = [].
Proof. induction l as [|x l IH]; simpl; done. Qed.

(** The drain loop of [gc] with [k] resources to go and as many in the
    channel: [k] iterations destroy the [k] oldest. *)
Lemma gc_drain_run (k : nat) t o s :
  threads s !! t = Some (gc_drain (Z.of_nat k)) →
  (k <= length (srcs (pool s)))%nat →
  Z.of_nat k <= int_max →
  steps t (replicate k o) s =
  Some (moved t (gc_drain 0) (with_srcs (drop k (srcs (pool s))) (pool s))
          (EvDestroy <$> take k (srcs (pool s))) s).
Proof.
  revert s. induction k as [|k IH]; intros s Ht Hk Hmax.
  - change (Z.of_nat 0) with 0 in Ht.
    rewrite drop_0, with_srcs_same. unfold moved. simpl.
    rewrite app_nil_r, (list_insert_id _ _ _ Ht). by destruct s.
  - destruct (srcs (pool s)) as [|src rest] eqn:Hsrcs; [simpl in Hk; lia|].
    simpl replicate.
    erewrite steps_cons_at; [|done|].
    2:{ cbn -[Z.of_nat]. unfold receive. rewrite Hsrcs.
        replace (0 <? Z.of_nat (S k)) with true by (symmetry; apply Z.ltb_lt; lia).
        rewrite wrap_id by (unfold is_int, int_min, int_max in *; lia).
        replace (Z.of_nat (S k) - 1) with (Z.of_nat k) by lia. reflexivity. }
    rewrite IH.
    + rewrite moved_moved. simpl. by destruct (pool s).
    + by eapply moved_lookup.
    + simpl in *. lia.
    + lia.
Qed.

(** C5: one pass of the reaper, entered with the mutex free on a pool
    with [maxIdle >= 0], runs to the sleep and does what its contract
    says: with [I] resources in the channel and [I > maxIdle] it
    receives and destroys the [I - maxIdle] oldest and lowers [len] by
    [I - maxIdle]; otherwise the struct and the trace are unchanged.
    It never calls the factory. *)
Theorem gc_pass_meets_contract s t o :
  reachable s →
  0 <= maxIdle (pool s) →
  threads s !! t = Some gc_Lock →
  writer (pool s) = None →
  readers (pool s) = 0%nat →
  (∃ n, steps t (replicate n o) s =
        Some (moved t gc_Sleep (reaper_contract (pool s)).1
                (reaper_contract (pool s)).2 s)) ∧
  creations (reaper_contract (pool s)).2 = [].
Proof.
  intros Hr Hmi Ht Hw Hrd. pose proof (reachable_Inv s Hr) as HI.
  destruct (free_facts s t _ HI Hw Ht) as (Hrel & _ & Hch).
  pose proof (inv_cap s HI) as Hcap. pose proof (inv_len s HI) as Hlen.
  pose proof (inv_chan s HI) as Hchan. pose proof (inv_maxIdle s HI) as Hmax.
  unfold reaper_contract. clear Hr HI.
  destruct s as [[sr cl cap mi ln gct rel w rd] l tr];
    unfold chan_len, is_int, int_min, int_max in *; simpl in * |-; subst.
  cbn [pool capacity len srcs maxIdle chan_len].
  assert (wrap (Z.of_nat (length sr) - mi) = Z.of_nat (length sr) - mi) as Hwrap
    by (apply wrap_id; unfold is_int, int_min, int_max; lia).
  destruct (0 <? Z.of_nat (length sr) - mi) eqn:Hex.
  - apply Z.ltb_lt in Hex. split; [|apply creations_destroys].
    set (k := Z.to_nat (Z.of_nat (length sr) - mi)).
    assert (Z.of_nat k = Z.of_nat (length sr) - mi) as Hk by lia.
    exists (3 + (k + 2))%nat. rewrite !replicate_add. cbn [replicate app].
    run1. run1_by ltac:(rewrite Hwrap, (proj2 (Z.ltb_lt _ _) Hex)).
    run1_by ltac:(rewrite wrap_id by (unfold is_int, int_min, int_max; lia)).
    erewrite steps_app_Some.
    2:{ apply gc_drain_run; rewrite <- ?Hk; simpl; [|lia|unfold int_max; lia].
        rewrite Hk. apply list_lookup_insert_eq. by eapply lookup_lt_Some. }
    rewrite moved_moved. run1. run1. cbn. by rewrite !app_nil_r.
  - split; [|done]. exists 3%nat. simpl replicate.
    run1. run1_by ltac:(rewrite Hwrap, Hex). run1. reflexivity.
Qed.

(** With a negative [maxIdle] (the specification takes it to be
    non-negative) the first pass of the reaper on the empty pool
    subtracts from [len] and then waits for a resource on the empty
    channel, with the write lock held. *)
Example gc_negative_maxIdle_waits :
  ∃ s', steps 0 (replicate 6 (makes 7)) (fresh 2 (-1)) = Some s' ∧
    threads s' !! 0%nat = Some (gc_drain 1) ∧
    len (pool s') = -1 ∧
    writer (pool s') = Some 0%nat ∧
    ∀ o, step 0 o s' = None.
Proof. eexists. split; [reflexivity|]. by split_and!. Qed.

(** ** The ledger of the resources *)

Lemma same_nonneg r src : 0 <= same r src.
Proof. unfold same. case_decide; lia. Qed.

Lemma same_refl r : same r r = 1.
Proof. unfold same. by rewrite decide_True. Qed.

Lemma holds_nonneg r c : 0 <= holds r c.
Proof. destruct c; simpl; try lia; apply same_nonneg. Qed.

Lemma made_nonneg r e : 0 <= made r e.
Proof. destruct e as [[]| | | |]; simpl; try lia; apply same_nonneg. Qed.

Lemma destroyed_nonneg r e : 0 <= destroyed r e.
Proof. destruct e; simpl; try lia; apply same_nonneg. Qed.

Lemma refused_nonneg r e : 0 <= refused r e.
Proof. destruct e as [| ? []| | |]; simpl; try lia; apply same_nonneg. Qed.

Lemma doomed_handing_holds r c : doomed r c + handing r c <= holds r c.
Proof. destruct c; simpl; try lia; pose proof (same_nonneg r src); lia. Qed.

(** A callback is called only at [Call_callback], on the resource held. *)
Lemma exec_callback_ev t o p c p' c' evs (k : nat) r out :
  exec t o p c = Some (p', c', evs) →
  evs !! k = Some (EvCallback r out) →
  c = Call_callback r ∧ k = 0%nat.
Proof.
  intros He Hk. destruct c; exec_cases He;
    destruct k as [|[|k]]; simplify_eq/=; done.
Qed.

Ltac ledger :=
  repeat match goal with
  | |- context [same ?r ?r] => rewrite (same_refl r)
  | |- context [same ?r ?x] =>
      lazymatch goal with
      | _ : 0 <= same r x |- _ => fail
      | _ => pose proof (same_nonneg r x)
      end
  | H : context [same ?r ?x] |- _ =>
      lazymatch goal with
      | _ : 0 <= same r x |- _ => fail
      | _ => pose proof (same_nonneg r x)
      end
  end; try lia.

Section ledger.
Context (s : state) (HL : Ledger s) (t : nat) (o : oracle) (c : pc).
Context (p' : classic) (c' : pc) (evs : list event).
Context (Ht : threads s !! t = Some c).
Context (He : exec t o (pool s) c = Some (p', c', evs)).

Lemma exec_led_made r :
  occurs r (moved t c' p' evs s) + sumZ (destroyed r) (trace s ++ evs) <=
  sumZ (made r) (trace s ++ evs).
Proof using HL Ht He.
  pose proof (led_made s HL r) as H. unfold occurs in *. simpl.
  rewrite (sumZ_insert _ _ _ _ _ Ht), !sumZ_app.
  destruct c; exec_cases He; rewrite ?sumZ_app; simpl;
    repeat match goal with
    | H : srcs ?p = _, H' : context [sumZ _ (srcs ?p)] |- _ =>
        rewrite H in H'; simpl in H'
    end; ledger.
Qed.

Lemma exec_led_refused r :
  sumZ (refused r) (trace s ++ evs) <=
  sumZ (doomed r) (<[t := c']> (threads s)) +
  sumZ (destroyed r) (trace s ++ evs).
Proof using HL Ht He.
  pose proof (led_refused s HL r) as H.
  rewrite (sumZ_insert _ _ _ _ _ Ht), !sumZ_app.
  destruct c; exec_cases He; simpl; ledger.
Qed.

Lemma exec_led_order (i j : nat) r out :
  (trace s ++ evs) !! i = Some (EvIsUsable r false) →
  (trace s ++ evs) !! j = Some (EvCallback r out) →
  (i < j)%nat → 2 <= sumZ (made r) (trace s ++ evs).
Proof using HL Ht He.
  intros Hi Hj Hij. rewrite sumZ_app.
  assert (0 <= sumZ (made r) evs)
    by (apply sumZ_nonneg; intros; apply made_nonneg).
  destruct (decide (j < length (trace s))%nat) as [Hlt|Hge].
  - rewrite lookup_app_l in Hi, Hj by lia.
    pose proof (led_order s HL i j r out Hi Hj Hij). lia.
  - rewrite lookup_app_r in Hj by lia.
    destruct (exec_callback_ev _ _ _ _ _ _ _ _ _ _ He Hj) as [-> Hk].
    rewrite lookup_app_l in Hi by lia.
    pose proof (sumZ_elem (refused r) _ _ _ (refused_nonneg r) Hi) as Hre.
    simpl in Hre. rewrite same_refl in Hre.
    pose proof (led_refused s HL r) as H2.
    pose proof (led_made s HL r) as H1. unfold occurs in H1.
    pose proof (sumZ_mono (λ c, doomed r c + handing r c) (holds r)
                  (threads s) (doomed_handing_holds r)) as Hdh.
    rewrite sumZ_add in Hdh.
    pose proof (sumZ_elem (handing r) _ _ _
                  ltac:(intros []; simpl; try lia; apply same_nonneg) Ht)
      as Hh.
    simpl in Hh. rewrite same_refl in Hh.
    assert (0 <= sumZ (same r) (srcs (pool s)))
      by (apply sumZ_nonneg; intros; apply same_nonneg).
    assert (0 <= sumZ (doomed r) (threads s))
      by (apply sumZ_nonneg; intros ? []; simpl; intros;
          try lia; apply same_nonneg).
    assert (sumZ (destroyed r) (trace s) <= 0 ∨
            1 <= sumZ (destroyed r) (trace s)) as [?|?] by lia; lia.
Qed.
End ledger.

Lemma Ledger_step s t o s' : Ledger s → step t o s = Some s' → Ledger s'.
Proof.
  intros HL Hs.
  apply step_inv in Hs as (c & p' & c' & evs & Ht & He & ->).
  split; simpl.
  - intros r. by eapply exec_led_made.
  - intros r. by eapply exec_led_refused.
  - intros i j r out. by eapply exec_led_order.
Qed.

Lemma Ledger_go s c : Ledger s → entry c → Ledger (go c s).
Proof.
  intros HL Hc.
  assert (∀ r, holds r c = 0 ∧ doomed r c = 0) as H0
    by (intros r; destruct Hc; done).
  split; simpl.
  - intros r. pose proof (led_made s HL r) as H. unfold occurs in *. simpl.
    rewrite sumZ_app. simpl. destruct (H0 r) as [-> _]. lia.
  - intros r. pose proof (led_refused s HL r) as H.
    rewrite sumZ_app. simpl. destruct (H0 r) as [_ ->]. lia.
  - apply HL.
Qed.

Lemma Ledger_ClassicPool capacity maxIdle gctime s :
  ClassicPool capacity maxIdle gctime = Some s → Ledger s.
Proof.
  unfold ClassicPool. intros Hs. case_match; simplify_eq.
  split; unfold occurs; simpl; try lia. intros i j r out Hi. done.
Qed.

Lemma reachable_Ledger s : reachable s → Ledger s.
Proof.
  intros (cap & mi & gct & s0 & _ & _ & H0 & Hs).
  apply Ledger_ClassicPool in H0.
  induction Hs as [|s1 s2 s3 _ IH Hstep]; [done|].
  specialize (IH H0). destruct Hstep; eauto using Ledger_step, Ledger_go.
Qed.

Lemma trace_grows s s' : Steps s s' → ∃ evs, trace s' = trace s ++ evs.
Proof.
  induction 1 as [|s1 s2 s3 _ [evs IH] Hstep].
  - exists []. by rewrite app_nil_r.
  - destruct Hstep as [t o s2 s3 Hs|c s2 Hc].
    + apply step_inv in Hs as (c & p' & c' & evs' & Ht & He & ->). simpl.
      exists (evs ++ evs'). by rewrite IH, app_assoc.
    + by exists evs.
Qed.

Lemma reachable_Steps s s' : reachable s → Steps s s' → reachable s'.
Proof.
  intros (cap & mi & gct & s0 & Hc & Hm & H0 & Hs) Hs'.
  exists cap, mi, gct, s0. split_and!; try done. by eapply Steps_trans.
Qed.

(** ** A resource that is not usable *)

(** From the answer "not usable" to the label [wait]: five statements. *)
Lemma del_run s t src o :
  reachable s →
  threads s !! t = Some (Call_IsUsable src) →
  o_usable o = false →
  writer (pool s) = None →
  readers (pool s) = 0%nat →
  steps t (replicate 5 o) s =
  Some (moved t Call_RLock (with_len (len (pool s) - 1) (pool s))
          [EvIsUsable src false; EvDestroy src] s).
Proof.
  intros Hr Ht Ho Hw Hrd. pose proof (reachable_Inv s Hr) as HI.
  destruct (free_facts s t _ HI Hw Ht) as (Hrel & _ & Hch).
  pose proof (inv_cap s HI) as Hcap. pose proof (inv_len s HI) as Hlen.
  clear Hr HI.
  destruct s as [[sr cl cap mi ln gct rel w rd] l tr];
    unfold chan_len in *; simpl in * |-; subst.
  simpl replicate.
  run1_by ltac:(rewrite Ho). run1. run1.
  run1_by ltac:(rewrite wrap_id by (unfold is_int, int_min, int_max in *; lia)).
  run1. reflexivity.
Qed.

Lemma occurs_nonneg r s : 0 <= occurs r s.
Proof.
  unfold occurs.
  assert (0 <= sumZ (same r) (srcs (pool s)))
    by (apply sumZ_nonneg; intros; apply same_nonneg).
  assert (0 <= sumZ (holds r) (threads s))
    by (apply sumZ_nonneg; intros; apply holds_nonneg).
  lia.
Qed.

(** C6: [Call] holds resource [src], just received from the channel,
    and [src.IsUsable()] answers false.  With the mutex free the next
    five statements destroy [src] once, lower [len] by one and lead
    back to the label [wait]: the channel is as it was, the callback
    was not called and [Call] has not returned an error.  Whatever the
    goroutines do afterwards, as long as the factory does not return
    [src] a second time, [src] is destroyed that once only and every
    call of the callback on [src] is older than the answer. *)
Theorem Call_deletes_unusable s t src o :
  reachable s →
  threads s !! t = Some (Call_IsUsable src) →
  o_usable o = false →
  writer (pool s) = None →
  readers (pool s) = 0%nat →
  ∃ s1,
    steps t (replicate 5 o) s = Some s1 ∧
    s1 = moved t Call_RLock (with_len (len (pool s) - 1) (pool s))
           [EvIsUsable src false; EvDestroy src] s ∧
    ∀ s', Steps s1 s' → sumZ (made src) (trace s') <= 1 →
      sumZ (destroyed src) (trace s') = 1 ∧
      ∀ (j : nat) out, trace s' !! j = Some (EvCallback src out) →
                       (j < length (trace s))%nat.
Proof.
  intros Hr Ht Ho Hw Hrd. eexists. split; [|split; [reflexivity|]].
  { by apply del_run. }
  intros s' Hs' Hmade.
  assert (reachable s') as Hr'.
  { eapply reachable_Steps; [|done]. eapply reachable_steps; [done|].
    by apply del_run. }
  pose proof (reachable_Ledger s' Hr') as HL.
  destruct (trace_grows _ _ Hs') as [evs Htr]. simpl in Htr.
  split.
  - pose proof (led_made s' HL src) as H1. pose proof (occurs_nonneg src s').
    assert (1 <= sumZ (destroyed src) (trace s')); [|lia].
    rewrite Htr, !sumZ_app. simpl. rewrite same_refl.
    assert (0 <= sumZ (destroyed src) (trace s))
      by (apply sumZ_nonneg; intros; apply destroyed_nonneg).
    assert (0 <= sumZ (destroyed src) evs)
      by (apply sumZ_nonneg; intros; apply destroyed_nonneg).
    lia.
  - intros j out Hj.
    assert (trace s' !! length (trace s) = Some (EvIsUsable src false)) as Hi.
    { rewrite Htr, <- app_assoc, lookup_app_r by lia.
      by rewrite Nat.sub_diag. }
    destruct (decide (j < length (trace s))%nat) as [|Hge]; [done|].
    assert (j ≠ length (trace s)) by (intros ->; congruence).
    pose proof (led_order s' HL (length (trace s)) j src out Hi Hj
                  ltac:(lia)). lia.
Qed.

(** ** The callback and the way back *)

(** C7, amended: once the callback is called on a pool that is not
    closed, with nobody inside the mutex, six statements end the
    [Call]: a panic of the callback
    comes back as a non-nil error, a return as what the callback
    returned; the resource is reset and parked at the back of the
    channel; [len] is what it was when the callback was called. *)
Theorem Call_parks_after_callback s t src o :
  reachable s →
  threads s !! t = Some (Call_callback src) →
  released (pool s) = false →
  writer (pool s) = None →
  readers (pool s) = 0%nat →
  steps t (replicate 6 o) s =
  Some (moved t (Call_return (callback_error (o_callback o)))
          (with_srcs (srcs (pool s) ++ [src]) (pool s))
          [EvCallback src (o_callback o); EvReset src] s) ∧
  (∀ v, o_callback o = Panics v → callback_error (o_callback o) ≠ None).
Proof.
  intros Hr Ht Hrel Hw Hrd. pose proof (reachable_Inv s Hr) as HI.
  destruct (free_facts s t _ HI Hw Ht) as (_ & _ & Hch).
  pose proof (inv_cap s HI) as Hcap. pose proof (inv_len s HI) as Hlen.
  pose proof (inv_open s HI) as Hopen.
  clear Hr HI. split; [|by intros v ->].
  destruct s as [[sr cl cap mi ln gct rel w rd] l tr];
    unfold chan_len in *; simpl in * |-; subst.
  simpl replicate.
  run1. run1. run1. run1.
  run1_by ltac:(rewrite (proj2 (Z.ltb_lt (Z.of_nat (length sr)) cap)) by lia).
  run1. reflexivity.
Qed.

Example faulty_Call :
  steps 1 (replicate 22 faulty) (go Call_RLock (fresh 1 1)) = Some faulted7.
Proof. vm_compute. reflexivity. Qed.

(** C7, as stated, fails: on the fresh pool of capacity 1 a [Call]
    whose callback panics returns the fault as an error and parks the
    resource, and [len] has gone from 0 to 1, since this [Call] had to
    grow the pool before it could borrow. *)
Lemma whole_Call_changes_len :
  ¬ whole_Call_keeps_len 1 (replicate 22 faulty) (go Call_RLock (fresh 1 1)).
Proof.
  intros H.
  pose proof (H faulted7 (Some (FaultError 3)) eq_refl faulty_Call
                eq_refl eq_refl) as E.
  discriminate E.
Qed.

(** ** After [released] is set *)

Lemma exec_released s t o c p' c' evs :
  Inv s → threads s !! t = Some c →
  exec t o (pool s) c = Some (p', c', evs) →
  released (pool s) = true →
  released p' = true ∧ creations evs = [] ∧
  (srcs p' = srcs (pool s) ∨ srcs p' = drop 1 (srcs (pool s))).
Proof.
  intros HI Ht He Hrel.
  destruct (inv_drainer s HI Hrel) as (t0 & c0 & Hw0 & _).
  destruct c; facts HI Ht; exec_cases He; try congruence;
    (split_and!; [done|done|]); first [by left | right].
  repeat match goal with H : srcs _ = _ |- _ => rewrite ?H; clear H end.
  reflexivity.
Qed.

Lemma Step_released s s' :
  Inv s → released (pool s) = true → Step s s' →
  released (pool s') = true ∧
  creations (trace s') = creations (trace s) ∧
  ∃ k, srcs (pool s') = drop k (srcs (pool s)).
Proof.
  intros HI Hrel Hstep. revert HI Hrel.
  destruct Hstep as [t o s s' Hs|c s Hc]; intros HI Hrel.
  - apply step_inv in Hs as (c & p' & c' & evs & Ht & He & ->).
    destruct (exec_released s t o c p' c' evs HI Ht He Hrel)
      as (Hrel' & Hcr & Hsr).
    split_and!; [done| |].
    + simpl. by rewrite creations_app, Hcr, app_nil_r.
    + simpl. destruct Hsr as [->| ->]; [by exists 0%nat | by exists 1%nat].
  - split_and!; [done..|]. by exists 0%nat.
Qed.

(** C8: from a state of a pool in which [released] is set, whatever
    the goroutines do afterwards, [released] stays set, the factory is
    not called again and the channel only loses resources from its
    front: none is sent to it. *)
Theorem released_is_final s :
  reachable s →
  released (pool s) = true →
  ∀ s', Steps s s' →
    released (pool s') = true ∧
    creations (trace s') = creations (trace s) ∧
    ∃ k, srcs (pool s') = drop k (srcs (pool s)).
Proof.
  intros Hr Hrel s' Hs. pose proof (reachable_Inv s Hr) as HI.
  induction Hs as [|s1 s2 s3 Hs12 IH Hstep].
  - split_and!; [done..|]. by exists 0%nat.
  - destruct (IH Hr Hrel HI) as (Hrel2 & Hcr2 & k2 & Hk2).
    destruct (Step_released s2 s3 (Inv_Steps _ _ HI Hs12) Hrel2 Hstep)
      as (Hrel3 & Hcr3 & k3 & Hk3).
    split_and!; [done|congruence|].
    exists (k2 + k3)%nat. by rewrite Hk3, Hk2, drop_drop.
Qed.

(** ** The way back on a closed pool *)

(** C9: [recover] is entered with a borrowed resource on a pool whose
    [released] flag is set.  However far it runs, nothing is added to
    the trace (no reset, no destroy) and the struct, channel included,
    is what it was up to the count of readers.  When nobody is inside
    the mutex it returns after [RLock], the test of the flag and
    [RUnlock], and the struct is what it was. *)
Theorem recover_on_released_pool s t src err :
  threads s !! t = Some (recover_RLock src err) →
  released (pool s) = true →
  (∀ os s', steps t os s = Some s' →
     trace s' = trace s ∧
     with_readers (readers (pool s)) (pool s') = pool s) ∧
  (writer (pool s) = None →
   readers (pool s) = 0%nat →
   ∀ o1 o2 o3,
     steps t [o1; o2; o3] s =
     Some {| pool := pool s;
             threads := <[t := Call_return err]> (threads s);
             trace := trace s |}).
Proof.
  intros Ht Hrel. split.
  - intros os s' Hrun.
    destruct s as [[sr cl cap mi ln gct rel w rd] l tr]; simpl in * |-; subst.
    pose proof (lookup_lt_Some _ _ _ Ht) as Hlt.
    destruct os as [|o1 os]; [by simplify_eq/=|].
    destruct w as [w|].
    { simpl in Hrun. unfold step in Hrun. simpl in Hrun.
      rewrite Ht in Hrun. done. }
    revert Hrun. run1. destruct os as [|o2 os].
    { intros [= <-]. simpl. by rewrite app_nil_r. }
    run1. destruct os as [|o3 os].
    { intros [= <-]. simpl. by rewrite app_nil_r. }
    run1. destruct os as [|o4 os].
    { intros [= <-]. simpl. by rewrite app_nil_r. }
    simpl. unfold step. simpl. rewrite list_lookup_insert_eq by done. done.
  - intros Hw Hrd o1 o2 o3. rewrite <- moved_nil.
    destruct s as [[sr cl cap mi ln gct rel w rd] l tr]; simpl in * |-; subst.
    run1. run1. run1. reflexivity.
Qed.

(** ** A pool of capacity 0 *)

(** One more turn of the loop is always possible and changes nothing
    but the mutex. *)
Lemma spin_step s t o c :
  threads s !! t = Some c →
  spin_lock t c (pool s) →
  capacity (pool s) = 0 → 0 <= len (pool s) →
  srcs (pool s) = [] → srcs_closed (pool s) = false →
  released (pool s) = false →
  ∃ s' c', step t o s = Some s' ∧
    threads s' !! t = Some c' ∧ spin_lock t c' (pool s') ∧ spinning c' = true ∧
    capacity (pool s') = 0 ∧ len (pool s') = len (pool s) ∧
    srcs (pool s') = [] ∧ srcs_closed (pool s') = false ∧
    released (pool s') = false ∧ trace s' = trace s.
Proof.
  intros Ht Hsp Hcap Hlen Hsrcs Hopen Hrel.
  pose proof (lookup_lt_Some _ _ _ Ht) as Hlt.
  unfold step. rewrite Ht. simpl.
  destruct s as [[sr cl cap mi ln gct rel w rd] l tr]; simpl in * |-; subst.
  destruct c; try done;
    try (match goal with e : option error |- _ => destruct e end; try done);
    simpl in Hsp; destruct Hsp as [-> ->]; cbn;
    rewrite ?(proj2 (Z.leb_le 0 ln) Hlen); cbn;
    eexists _, _; (split; [reflexivity|]); simpl;
    rewrite list_lookup_insert_eq by done;
    (split; [reflexivity|]); simpl; rewrite ?app_nil_r; done.
Qed.

(** Alone, the goroutine can always run one more statement. *)
Lemma spin_run s t os :
  reachable s →
  capacity (pool s) = 0 →
  released (pool s) = false →
  threads s !! t = Some Call_RLock →
  writer (pool s) = None →
  readers (pool s) = 0%nat →
  ∃ s' c, steps t os s = Some s' ∧
    threads s' !! t = Some c ∧ spinning c = true ∧
    trace s' = trace s ∧ len (pool s') = len (pool s) ∧
    srcs (pool s') = [] ∧ released (pool s') = false.
Proof.
  intros Hr Hcap Hrel Ht Hw Hrd. pose proof (reachable_Inv s Hr) as HI.
  destruct (free_facts s t _ HI Hw Ht) as (_ & _ & Hch).
  pose proof (inv_chan s HI) as Hchan. pose proof (inv_open s HI) as Hopen.
  assert (srcs (pool s) = []) as Hsrcs.
  { unfold chan_len in Hchan. destruct (srcs (pool s)); [done|].
    simpl in Hchan. lia. }
  assert (0 <= len (pool s)) as Hlen.
  { unfold chan_len in Hch. simpl in Hch. lia. }
  assert (spin_lock t Call_RLock (pool s)) as Hsp by done.
  assert (spinning Call_RLock = true) as Hspin by done.
  clear Hr HI Hch Hchan Hw Hrd.
  revert Ht Hsp Hspin. generalize Call_RLock as c.
  revert s Hcap Hrel Hopen Hsrcs Hlen.
  induction os as [|o os IH]; intros s Hcap Hrel Hopen Hsrcs Hlen c Ht Hsp Hspin.
  - exists s, c. by split_and!.
  - destruct (spin_step s t o c Ht Hsp Hcap Hlen Hsrcs Hopen Hrel)
      as (s1 & c1 & Hs & Ht1 & Hsp1 & Hspin1 & Hcap1 & Hlen1 & Hsrcs1 &
          Hopen1 & Hrel1 & Htr1).
    destruct (IH s1 Hcap1 Hrel1 Hopen1 Hsrcs1 ltac:(lia) c1 Ht1 Hsp1 Hspin1)
      as (s' & c' & Hrun & Ht' & Hspin' & Htr' & Hlen' & Hsrcs' & Hrel').
    exists s', c'. simpl. rewrite Hs. simpl.
    split_and!; try done; congruence.
Qed.

Lemma Barren_step s t o s' :
  Inv s → capacity (pool s) = 0 → Barren s → step t o s = Some s' → Barren s'.
Proof.
  intros HI Hcap (Hsrcs & Htr & Hpc) Hs.
  apply step_inv in Hs as (c & p' & c' & evs & Ht & He & ->).
  pose proof (Hpc t c Ht) as Hc.
  pose proof (inv_count s HI) as Hcount. pose proof (inv_open s HI) as Hopen.
  pose proof (lookup_lt_Some _ _ _ Ht) as Hlt.
  assert (srcs p' = [] ∧ evs = [] ∧ beyond_loop c' = false) as (H1 & H2 & H3).
  { destruct c; try done; facts HI Ht; exec_cases He; try done;
      try congruence.
    all: try specialize (Hcount ltac:(done)); unfold chan_len in *.
    all: rewrite ?Hsrcs in *; simpl in *; try lia; try done. }
  split_and!; simpl.
  - done.
  - by rewrite Htr, H2.
  - intros t' c''. destruct (decide (t' = t)) as [->|Hne].
    + rewrite list_lookup_insert_eq by done. congruence.
    + rewrite list_lookup_insert_ne by done. apply Hpc.
Qed.

Lemma capacity_Steps s s' :
  Steps s s' → capacity (pool s') = capacity (pool s).
Proof.
  induction 1 as [|s1 s2 s3 _ IH Hstep]; [done|]. rewrite <- IH.
  destruct Hstep as [t o s2 s3 Hs|c s2 Hc]; [|done].
  apply step_inv in Hs as (c & p' & c' & evs & Ht & He & ->).
  apply (exec_cap s2 t o c p' c' evs Ht He).
Qed.

Lemma reachable_Barren s :
  reachable s → capacity (pool s) = 0 → Barren s.
Proof.
  intros (cap & mi & gct & s0 & Hc & Hm & H0 & Hs) Hcap.
  pose proof (Inv_ClassicPool _ _ _ _ Hc Hm H0) as HI0.
  rewrite (capacity_Steps _ _ Hs) in Hcap. rename Hcap into Hcap0.
  assert (Barren s0) as HB0.
  { unfold ClassicPool in H0. case_match; simplify_eq.
    split_and!; try done. intros [|[|t]] c ?; simplify_eq/=. done. }
  clear H0.
  induction Hs as [|s1 s2 s3 Hs12 IH Hstep]; [done|].
  specialize (IH Hcap0 HI0 HB0).
  pose proof (Inv_Steps _ _ HI0 Hs12) as HI2.
  destruct Hstep as [t o s2 s3 Hs|c s2 Hc2].
  - eapply Barren_step; [done| |done|done].
    by rewrite (capacity_Steps _ _ Hs12).
  - destruct IH as (H1 & H2 & H3). split_and!; try done.
    intros t c0 Ht. apply lookup_app_Some in Ht as [Ht|[_ Ht]]; [eauto|].
    destruct (t - length (threads s2))%nat; simplify_eq/=. by destruct Hc2.
Qed.

Lemma spinning_exec t o p c p' c' evs :
  spinning c = true → exec t o p c = Some (p', c', evs) →
  spinning c' = true ∨ beyond_loop c' = true.
Proof.
  intros Hc He. destruct c; try done; exec_cases He; auto.
Qed.

(** Under any schedule the goroutine of a [Call] on a pool of capacity
    0 stays in the retry loop, and nothing of the outside world is
    called. *)
Lemma capacity_zero_Steps s t s' :
  reachable s → capacity (pool s) = 0 →
  threads s !! t = Some Call_RLock → Steps s s' →
  trace s' = [] ∧ ∃ c, threads s' !! t = Some c ∧ spinning c = true.
Proof.
  intros Hr Hcap Ht Hs.
  assert (∀ s2, Steps s s2 → Barren s2) as HB.
  { intros s2 Hs2. apply reachable_Barren; [by eapply reachable_Steps|].
    by rewrite (capacity_Steps _ _ Hs2). }
  split; [apply (HB s' Hs)|].
  induction Hs as [|s1 s2 s3 Hs12 IH Hstep]; [by exists Call_RLock|].
  destruct (IH Hr Hcap Ht HB) as (c & Hc & Hsp).
  assert (Steps s1 s3) as Hs13 by (by econstructor).
  destruct (HB s3 Hs13) as (_ & _ & Hpc).
  destruct Hstep as [t0 o s2 s3 Hs|c0 s2 Hc0].
  - apply step_inv in Hs as (c1 & p' & c' & evs & Ht0 & He & ->). simpl in *.
    pose proof (lookup_lt_Some _ _ _ Ht0) as Hlt.
    destruct (decide (t = t0)) as [->|Hne].
    + simplify_eq. exists c'. rewrite list_lookup_insert_eq by done.
      split; [done|].
      destruct (spinning_exec _ _ _ _ _ _ _ Hsp He) as [|Hb]; [done|].
      specialize (Hpc t0 c'). rewrite list_lookup_insert_eq in Hpc by done.
      rewrite Hpc in Hb; done.
    + exists c. by rewrite list_lookup_insert_ne.
  - exists c. split; [|done]. by apply lookup_app_l_Some.
Qed.

(** C10: on a pool of capacity 0 that is not closed, a [Call] that
    runs alone with the mutex free can always run one more statement,
    however many it has run: it is still in the retry loop, where the
    receive finds nothing and [incAuto] returns nil without calling
    the factory; the trace, [len], the empty channel and the flag are
    what they were.  And under every schedule of all the goroutines
    this [Call] stays in the retry loop, so it neither calls the
    callback nor returns, and nothing is ever added to the trace. *)
Theorem Call_spins_at_capacity_zero s t :
  reachable s →
  capacity (pool s) = 0 →
  released (pool s) = false →
  threads s !! t = Some Call_RLock →
  writer (pool s) = None →
  readers (pool s) = 0%nat →
  (∀ os, ∃ s' c, steps t os s = Some s' ∧
     threads s' !! t = Some c ∧ spinning c = true ∧
     trace s' = trace s ∧ len (pool s') = len (pool s) ∧
     srcs (pool s') = [] ∧ released (pool s') = false) ∧
  (∀ s', Steps s s' →
     trace s' = [] ∧ ∃ c, threads s' !! t = Some c ∧ spinning c = true).
Proof.
  intros Hr Hcap Hrel Ht Hw Hrd. split.
  - intros os. by apply spin_run.
  - intros s' Hs. by apply (capacity_zero_Steps s t s').
Qed.

(** ** The theorems at work on the pool [fresh 2 1] *)

Lemma is_int_small z : -100 <= z <= 100 → is_int z.
Proof. unfold is_int, int_min, int_max. lia. Qed.

(** Goroutine [t] runs [os] from the state that [H] says is reachable. *)
Ltac run_on t os H :=
  match type of H with
  | reachable ?s =>
      let E := fresh "E" in
      eassert (steps t os s = Some _) as E by (vm_compute; reflexivity);
      apply (reachable_steps _ _ _ _ H) in E; clear H; rename E into H
  end.

Lemma reachable_growing : reachable growing.
Proof.
  apply (reachable_steps 1 (replicate 4 (makes 7)) (go Call_RLock (fresh 2 1)));
    [|reflexivity].
  apply reachable_go; [|constructor].
  apply reachable_fresh; [lia|apply is_int_small; lia..].
Qed.

Lemma reachable_borrowed7 : reachable borrowed7.
Proof.
  apply (reachable_steps 1 (replicate 12 (makes 7)) growing); [|reflexivity].
  apply reachable_growing.
Qed.

Lemma reachable_borrowed78 : reachable borrowed78.
Proof.
  apply (reachable_steps 2 (replicate 16 (makes 8)) (go Call_RLock borrowed7));
    [|reflexivity].
  apply reachable_go; [|constructor]. apply reachable_borrowed7.
Qed.

Lemma reachable_idle78 : reachable idle78.
Proof.
  pose proof reachable_borrowed78 as H.
  run_on 1%nat (replicate 6 (makes 7)) H.
  run_on 2%nat (replicate 6 (makes 8)) H.
  run_on 0%nat (replicate 3 (makes 9)) H.
  exact H.
Qed.

Lemma reachable_probing7 : reachable probing7.
Proof.
  apply (reachable_steps 2 (replicate 4 (makes 7)) (go Call_RLock parked7));
    [|reflexivity].
  apply reachable_go; [|constructor]. apply reachable_parked7.
Qed.

Lemma reachable_closing7 : reachable closing7.
Proof.
  apply (reachable_steps 2 (replicate 3 (makes 7)) (go Release_Lock parked7));
    [|reflexivity].
  apply reachable_go; [|constructor]. apply reachable_parked7.
Qed.

Lemma reachable_spinner : reachable (go Call_RLock (fresh 0 1)).
Proof.
  apply reachable_go; [|constructor].
  apply reachable_fresh; [lia|apply is_int_small; lia..].
Qed.

Lemma incAuto_meets_contract_witness :
  reachable growing ∧
  threads growing !! 1%nat = Some incAuto_Lock ∧
  writer (pool growing) = None ∧
  readers (pool growing) = 0%nat ∧
  ∃ n, steps 1 (replicate n (makes 7)) growing =
       Some (moved 1 (Call_incAuto_ret None)
               (with_len 1 (with_srcs [7%nat] (pool growing)))
               [EvFactory (inl 7%nat)] growing).
Proof.
  split_and!; [apply reachable_growing|reflexivity..|].
  apply (incAuto_meets_contract growing 1 (makes 7));
    [apply reachable_growing|reflexivity..].
Defined.

Lemma gc_pass_meets_contract_witness :
  reachable idle78 ∧
  0 <= maxIdle (pool idle78) ∧
  threads idle78 !! 0%nat = Some gc_Lock ∧
  writer (pool idle78) = None ∧
  readers (pool idle78) = 0%nat ∧
  (∃ n, steps 0 (replicate n (makes 9)) idle78 =
        Some (moved 0 gc_Sleep (with_len 1 (with_srcs [8%nat] (pool idle78)))
                [EvDestroy 7%nat] idle78)) ∧
  creations [EvDestroy 7%nat] = [].
Proof.
  split_and!; [apply reachable_idle78|simpl; lia|reflexivity..| |reflexivity].
  apply (gc_pass_meets_contract idle78 0 (makes 9));
    [apply reachable_idle78|simpl; lia|reflexivity..].
Defined.

Lemma Call_deletes_unusable_witness :
  reachable probing7 ∧
  threads probing7 !! 2%nat = Some (Call_IsUsable 7%nat) ∧
  o_usable unusable = false ∧
  writer (pool probing7) = None ∧
  readers (pool probing7) = 0%nat ∧
  ∃ s1,
    steps 2 (replicate 5 unusable) probing7 = Some s1 ∧
    s1 = moved 2 Call_RLock (with_len 0 (pool probing7))
           [EvIsUsable 7%nat false; EvDestroy 7%nat] probing7 ∧
    ∀ s', Steps s1 s' → sumZ (made 7%nat) (trace s') <= 1 →
      sumZ (destroyed 7%nat) (trace s') = 1 ∧
      ∀ (j : nat) out, trace s' !! j = Some (EvCallback 7%nat out) →
                       (j < length (trace probing7))%nat.
Proof.
  split_and!; [apply reachable_probing7|reflexivity..|].
  apply (Call_deletes_unusable probing7 2 7%nat unusable);
    [apply reachable_probing7|reflexivity..].
Defined.

Lemma Call_parks_after_callback_witness :
  reachable borrowed7 ∧
  threads borrowed7 !! 1%nat = Some (Call_callback 7%nat) ∧
  released (pool borrowed7) = false ∧
  writer (pool borrowed7) = None ∧
  readers (pool borrowed7) = 0%nat ∧
  steps 1 (replicate 6 faulty) borrowed7 =
  Some (moved 1 (Call_return (Some (FaultError 3)))
          (with_srcs [7%nat] (pool borrowed7))
          [EvCallback 7%nat (Panics 3); EvReset 7%nat] borrowed7) ∧
  (∀ v, o_callback faulty = Panics v →
        callback_error (o_callback faulty) ≠ None).
Proof.
  split_and!; [apply reachable_borrowed7|reflexivity..| |];
    apply (Call_parks_after_callback borrowed7 1 7%nat faulty);
    (apply reachable_borrowed7 || reflexivity).
Defined.

Lemma released_is_final_witness :
  reachable closing7 ∧
  released (pool closing7) = true ∧
  ∀ s', Steps closing7 s' →
    released (pool s') = true ∧
    creations (trace s') = creations (trace closing7) ∧
    ∃ k, srcs (pool s') = drop k (srcs (pool closing7)).
Proof.
  split_and!; [apply reachable_closing7|reflexivity|].
  apply (released_is_final closing7); [apply reachable_closing7|reflexivity].
Defined.

Lemma recover_on_released_pool_witness :
  threads closed21 !! 3%nat = Some (recover_RLock 7%nat None) ∧
  released (pool closed21) = true ∧
  writer (pool closed21) = None ∧
  readers (pool closed21) = 0%nat ∧
  steps 3 [faulty; faulty; faulty] closed21 =
  Some {| pool := pool closed21;
          threads := <[3%nat := Call_return None]> (threads closed21);
          trace := trace closed21 |}.
Proof.
  split_and!; [reflexivity..|].
  apply (recover_on_released_pool closed21 3 7%nat None); reflexivity.
Defined.

Lemma Call_spins_at_capacity_zero_witness :
  reachable (go Call_RLock (fresh 0 1)) ∧
  capacity (pool (go Call_RLock (fresh 0 1))) = 0 ∧
  released (pool (go Call_RLock (fresh 0 1))) = false ∧
  threads (go Call_RLock (fresh 0 1)) !! 1%nat = Some Call_RLock ∧
  writer (pool (go Call_RLock (fresh 0 1))) = None ∧
  readers (pool (go Call_RLock (fresh 0 1))) = 0%nat ∧
  (∀ os, ∃ s' c, steps 1 os (go Call_RLock (fresh 0 1)) = Some s' ∧
     threads s' !! 1%nat = Some c ∧ spinning c = true ∧
     trace s' = trace (go Call_RLock (fresh 0 1)) ∧
     len (pool s') = len (pool (go Call_RLock (fresh 0 1))) ∧
     srcs (pool s') = [] ∧ released (pool s') = false) ∧
  (∀ s', Steps (go Call_RLock (fresh 0 1)) s' →
     trace s' = [] ∧ ∃ c, threads s' !! 1%nat = Some c ∧ spinning c = true).
Proof.
  split_and!; [apply reachable_spinner|reflexivity..| |];
    apply (Call_spins_at_capacity_zero (go Call_RLock (fresh 0 1)) 1);
    (apply reachable_spinner || reflexivity).
Defined.

(** * Further properties of the code *)

Local Arguments Z.ltb : simpl never.
Local Arguments Z.leb : simpl never.

Lemma reachable_drained7 : reachable drained7.
Proof.
  apply (reachable_steps 2 (replicate 5 (makes 7)) (go Release_Lock parked7));
    [|reflexivity].
  apply reachable_go; [apply reachable_parked7|constructor].
Qed.

Lemma reachable_counted7 : reachable counted7.
Proof.
  apply (reachable_steps 2 (replicate 3 (makes 7)) (go Len_RLock parked7));
    [|reflexivity].
  apply reachable_go; [apply reachable_parked7|constructor].
Qed.

Lemma reachable_testing7 : reachable testing7.
Proof.
  apply (reachable_steps 2 [makes 7] (go Call_RLock parked7)); [|reflexivity].
  apply reachable_go; [apply reachable_parked7|constructor].
Qed.

Lemma reachable_parking7 : reachable parking7.
Proof.
  apply (reachable_steps 1 (replicate 4 (makes 7)) borrowed7); [|reflexivity].
  apply reachable_borrowed7.
Qed.

Lemma reachable_faulted7 : reachable faulted7.
Proof.
  apply (reachable_steps 1 (replicate 22 faulty) (go Call_RLock (fresh 1 1)));
    [|apply faulty_Call].
  apply reachable_go; [|constructor].
  apply reachable_fresh; [lia|apply is_int_small; lia..].
Qed.

(** ** Locks and flags *)

Lemma sumZ_ext_lookup {A} (f g : A → Z) l :
  (∀ i x, l !! i = Some x → f x = g x) → sumZ f l = sumZ g l.
Proof.
  induction l as [|x l IH]; intros H; simpl; [done|].
  rewrite (H 0%nat x eq_refl), IH; [done|].
  intros i y Hi. by apply (H (S i)).
Qed.

(** X3: whenever no goroutine is inside [Lock], [len] is the number
    of resources in the channel, plus the calls that have one out for
    the callback, plus the calls of [del] that have not yet taken
    theirs off [len]. *)
Theorem len_counts_resources s :
  reachable s →
  writer (pool s) = None →
  len (pool s) =
  chan_len (pool s) + count borrowing (threads s) + count deleting (threads s).
Proof.
  intros Hr Hw. pose proof (reachable_Inv s Hr) as HI.
  assert (released (pool s) = false) as Hrel.
  { destruct (released (pool s)) eqn:Hrel; [|done].
    destruct (inv_drainer s HI Hrel) as (t0 & c0 & Hw0 & _). congruence. }
  rewrite (inv_count s HI Hrel). unfold count. rewrite <- Z.add_assoc.
  rewrite <- sumZ_add. f_equal. apply sumZ_ext_lookup.
  intros t c Ht.
  assert (holdsW c = false) as HW.
  { destruct (holdsW c) eqn:HW; [|done].
    pose proof (writer_here s HI t c Ht HW). congruence. }
  destruct c; simpl in *; done.
Qed.

(** X4: the mutex excludes: while a goroutine is between [Lock] and
    [Unlock], no other goroutine is inside a write-locked or a
    read-locked region. *)
Theorem mutex_excludes s t1 c1 t2 c2 :
  reachable s →
  threads s !! t1 = Some c1 → holdsW c1 = true →
  threads s !! t2 = Some c2 → holdsW c2 || holdsR c2 = true →
  t1 = t2.
Proof.
  intros Hr H1 HW1 H2 H. pose proof (reachable_Inv s Hr) as HI.
  pose proof (writer_here s HI t1 c1 H1 HW1) as Hw1.
  apply orb_true_iff in H as [HW2|HR2].
  - pose proof (writer_here s HI t2 c2 H2 HW2). congruence.
  - destruct (reader_here s HI t2 c2 H2 HR2). congruence.
Qed.

(** X5: the pool never panics by itself and never closes its
    channel: no receive yields nil, no send hits a closed channel, and
    [close(self.srcs)] in [Release] is never reached. *)
Theorem pool_never_panics s t :
  reachable s →
  srcs_closed (pool s) = false ∧
  threads s !! t ≠ Some panicked ∧
  threads s !! t ≠ Some Release_close.
Proof.
  intros Hr. pose proof (reachable_Inv s Hr) as HI.
  split_and!; [apply HI| |]; intros Ht; apply (here_ok s HI t _ Ht).
Qed.

(** X6: a send never waits: when [incAuto] or [recover] is about to
    send a resource, the channel has a free slot and takes it at its
    back. *)
Theorem send_never_waits s t c src :
  reachable s →
  threads s !! t = Some c →
  (c = incAuto_send src ∨ ∃ err, c = recover_send src err) →
  send src (pool s) = Sent (with_srcs (srcs (pool s) ++ [src]) (pool s)).
Proof.
  intros Hr Ht Hc. pose proof (reachable_Inv s Hr) as HI.
  pose proof (inv_open s HI) as Hopen. pose proof (inv_len s HI) as Hlen.
  assert (chan_len (pool s) < capacity (pool s)) as Hroom.
  { destruct Hc as [->|[err ->]].
    - pose proof (here_ok s HI t _ Ht) as Hok. simpl in Hok.
      pose proof (writer_weight s HI t _ Ht eq_refl) as Hww. simpl in Hww.
      pose proof (writer_open s HI t _ Ht eq_refl eq_refl) as Hrel.
      pose proof (inv_count s HI Hrel). unfold chan_len in *. lia.
    - destruct (reader_here s HI t _ Ht eq_refl) as [Hw _].
      destruct (free_facts s t _ HI Hw Ht) as (_ & _ & Hch).
      simpl in Hch. lia. }
  unfold send. rewrite Hopen. apply Z.ltb_lt in Hroom. by rewrite Hroom.
Qed.

(** X7: once [released] is set, every goroutine that asks for the
    mutex, in [Call], [Len], [Release], [del], [incAuto], [recover] or
    the reaper, waits. *)
Theorem released_blocks_everyone s t c o :
  reachable s →
  released (pool s) = true →
  threads s !! t = Some c →
  acquiring c = true →
  step t o s = None.
Proof.
  intros Hr Hrel Ht Hc. pose proof (reachable_Inv s Hr) as HI.
  destruct (inv_drainer s HI Hrel) as (t0 & c0 & Hw & _).
  unfold step. rewrite Ht. simpl.
  destruct c; try done; simpl; unfold RLock, Lock; by rewrite Hw.
Qed.

(** X8: the reaper started by [ClassicPool] never ends: [isReleased]
    never answers true to it and [gc] never returns. *)
Theorem gc_never_returns s t :
  reachable s →
  threads s !! t ≠ Some gc_return ∧
  threads s !! t ≠ Some (gc_isReleased_RUnlock true).
Proof.
  intros Hr. pose proof (reachable_Inv s Hr) as HI.
  split; intros Ht; pose proof (here_ok s HI t _ Ht) as Hok; done.
Qed.

(** X9: whenever a goroutine reads [self.released], in [Call],
    [recover], [isReleased] or [Release], the flag is false: the
    early returns of lines 71-74, 105-107 and 167-169 are never
    taken. *)
Theorem released_is_never_seen s t c :
  reachable s →
  threads s !! t = Some c →
  tests_released c = true →
  released (pool s) = false.
Proof.
  intros Hr Ht Hc. pose proof (reachable_Inv s Hr) as HI.
  destruct c; try done.
  - by apply (reader_open s HI t _ Ht).
  - by apply (reader_open s HI t _ Ht).
  - by apply (writer_open s HI t _ Ht).
  - by apply (reader_open s HI t _ Ht).
Qed.

Lemma closing_exec s t o c p' c' evs :
  Inv s → threads s !! t = Some c → closing c = true →
  exec t o (pool s) c = Some (p', c', evs) → closing c' = true.
Proof.
  intros HI Ht Hc He. pose proof (inv_open s HI) as Hopen.
  destruct c; try done; facts HI Ht; exec_cases He; try done; try congruence.
  arith.
Qed.

(** X10: a [Release] that has passed the test of the flag keeps the
    write lock under every schedule and stays between setting the
    flag and the drain loop: it never unlocks and never returns. *)
Theorem Release_keeps_the_lock s t c :
  reachable s →
  threads s !! t = Some c →
  closing c = true →
  ∀ s', Steps s s' →
    writer (pool s') = Some t ∧
    ∃ c', threads s' !! t = Some c' ∧ closing c' = true.
Proof.
  intros Hr Ht Hc s' Hs.
  assert (∃ c', threads s' !! t = Some c' ∧ closing c' = true) as (c' & Ht' & Hc').
  { pose proof (reachable_Inv s Hr) as HI.
    induction Hs as [|s1 s2 s3 Hs12 IH Hstep]; [by exists c|].
    destruct (IH Hr Ht HI) as (c2 & Ht2 & Hc2).
    pose proof (Inv_Steps _ _ HI Hs12) as HI2. clear IH.
    destruct Hstep as [t1 o s2 s3 Hst|c0 s2 Hc0].
    - apply step_inv in Hst as (c1 & p' & c1' & evs & Ht1 & He & ->). simpl.
      pose proof (lookup_lt_Some _ _ _ Ht1) as Hlt.
      destruct (decide (t1 = t)) as [->|Hne].
      + rewrite Ht2 in Ht1. injection Ht1 as <-.
        exists c1'. rewrite list_lookup_insert_eq by done.
        split; [done|]. by eapply closing_exec.
      + exists c2. by rewrite list_lookup_insert_ne.
    - exists c2. split; [|done]. by apply lookup_app_l_Some. }
  split; [|by exists c'].
  apply (writer_here s' (reachable_Inv s' (reachable_Steps _ _ Hr Hs)) t c' Ht').
  by destruct c'.
Qed.

(** ** The values of [Len] *)

Lemma LenOk_step s t o s' :
  Inv s → LenOk s → step t o s = Some s' → LenOk s'.
Proof.
  intros HI HL Hs.
  apply step_inv in Hs as (c & p' & c' & evs & Ht & He & ->).
  destruct (exec_cap s t o c p' c' evs Ht He) as [Hcap _].
  pose proof (lookup_lt_Some _ _ _ Ht) as Hlt.
  intros t' c'' n. simpl. rewrite Hcap.
  destruct (decide (t' = t)) as [->|Hne].
  - rewrite list_lookup_insert_eq by done. intros [= <-] Hn.
    pose proof (HL t c) as Hold. pose proof (inv_len s HI) as Hlen.
    destruct c; exec_cases He; simplify_eq/=; try done;
      try (repeat case_match; done).
    + destruct (reader_here s HI t _ Ht eq_refl) as [Hw _].
      destruct (free_facts s t _ HI Hw Ht) as (_ & _ & Hch).
      unfold chan_len in Hch. simpl in Hch. lia.
    + by apply Hold.
  - rewrite list_lookup_insert_ne by done. apply HL.
Qed.

Lemma reachable_LenOk s : reachable s → LenOk s.
Proof.
  intros (cap & mi & gct & s0 & Hc & Hm & H0 & Hs).
  pose proof (Inv_ClassicPool _ _ _ _ Hc Hm H0) as HI0.
  assert (LenOk s0) as HL0.
  { unfold ClassicPool in H0. case_match; simplify_eq.
    intros [|[|t]] c n ?; simplify_eq/=. done. }
  clear H0. induction Hs as [|s1 s2 s3 Hs12 IH Hstep]; [done|].
  specialize (IH HI0 HL0). pose proof (Inv_Steps _ _ HI0 Hs12) as HI2.
  destruct Hstep as [t o s2 s3 Hs|c s2 Hc2]; [by eapply LenOk_step|].
  intros t c0 n Ht. apply lookup_app_Some in Ht as [Ht|[_ Ht]]; [by eapply IH|].
  destruct (t - length (threads s2))%nat; simplify_eq/=. by destruct Hc2.
Qed.

(** X2: under every schedule, a value returned by [Len] lies between
    0 and [capacity]. *)
Theorem Len_results_in_range s t n :
  reachable s →
  threads s !! t = Some (Len_return n) →
  0 <= n <= capacity (pool s).
Proof. intros Hr Ht. by apply (reachable_LenOk s Hr t (Len_return n) n). Qed.

(** ** The life of a resource *)

(** The resource of an event is held by the goroutine or at the
    front of the channel. *)
Lemma exec_touches t o p c p' c' evs (k : nat) r e :
  exec t o p c = Some (p', c', evs) →
  evs !! k = Some e → touches r e = true →
  k = 0%nat ∧ made r e = 0 ∧ 1 <= sumZ (same r) (srcs p) + holds r c.
Proof.
  intros He Hk Hr.
  assert (0 <= sumZ (same r) (srcs p))
    by (apply sumZ_nonneg; intros; apply same_nonneg).
  destruct c; exec_cases He; destruct k as [|[|k]]; simplify_eq/=;
    try done; apply bool_decide_eq_true in Hr as ->;
    rewrite ?same_refl; split_and!; try done; try lia.
  all: match goal with |- context [sumZ ?f ?l] =>
         assert (0 <= sumZ f l)
           by (apply sumZ_nonneg; intros; apply same_nonneg)
       end; lia.
Qed.

Lemma Alive_step s t o s' :
  Ledger s → Alive s → step t o s = Some s' → Alive s'.
Proof.
  intros HL HA Hs.
  apply step_inv in Hs as (c & p' & c' & evs & Ht & He & ->).
  assert (∀ r, 0 <= sumZ (made r) evs) as Hevs
    by (intros; apply sumZ_nonneg; intros; apply made_nonneg).
  assert (∀ r, 0 <= sumZ (destroyed r) (trace s)) as Hdes
    by (intros; apply sumZ_nonneg; intros; apply destroyed_nonneg).
  assert (∀ r (k : nat) e, evs !! k = Some e → touches r e = true →
            1 <= occurs r s) as Hocc.
  { intros r k e Hk Hr.
    destruct (exec_touches _ _ _ _ _ _ _ _ _ _ He Hk Hr) as (_ & _ & H).
    unfold occurs.
    pose proof (sumZ_elem (holds r) _ _ _ (holds_nonneg r) Ht). lia. }
  split; simpl.
  - intros j r e Hj Hr. rewrite sumZ_app. specialize (Hevs r).
    destruct (decide (j < length (trace s))%nat) as [Hlt|Hge].
    + rewrite lookup_app_l in Hj by lia.
      pose proof (alive_made s HA j r e Hj Hr). lia.
    + rewrite lookup_app_r in Hj by lia.
      pose proof (Hocc r _ e Hj Hr). pose proof (led_made s HL r).
      specialize (Hdes r). lia.
  - intros i j r e Hi Hj Hr Hij. rewrite sumZ_app. specialize (Hevs r).
    destruct (decide (j < length (trace s))%nat) as [Hlt|Hge].
    + rewrite lookup_app_l in Hi, Hj by lia.
      pose proof (alive_final s HA i j r e Hi Hj Hr Hij). lia.
    + rewrite lookup_app_r in Hj by lia.
      destruct (exec_touches _ _ _ _ _ _ _ _ _ _ He Hj Hr) as (Hk & _ & _).
      rewrite lookup_app_l in Hi by lia.
      pose proof (sumZ_elem (destroyed r) _ _ _ (destroyed_nonneg r) Hi) as Hd.
      simpl in Hd. rewrite same_refl in Hd.
      pose proof (Hocc r _ e Hj Hr). pose proof (led_made s HL r). lia.
Qed.

Lemma reachable_Alive s : reachable s → Alive s.
Proof.
  intros (cap & mi & gct & s0 & Hc & Hm & H0 & Hs).
  pose proof (Ledger_ClassicPool _ _ _ _ H0) as HL0.
  assert (Alive s0) as HA0.
  { unfold ClassicPool in H0. case_match; simplify_eq.
    split; simpl; intros; done. }
  assert (Ledger s ∧ Alive s) as [_ ?]; [|done].
  clear H0. induction Hs as [|s1 s2 s3 Hs12 IH Hstep]; [done|].
  destruct (IH HL0 HA0) as [HL2 HA2].
  destruct Hstep as [t o s2 s3 Hs|c s2 Hc2].
  - split; [by eapply Ledger_step | by eapply Alive_step].
  - split; [by apply Ledger_go|]. split; apply HA2.
Qed.

(** X12: a resource that is probed, reset, destroyed or handed to the
    callback was returned by the factory; and if the factory returned
    it only once, nothing of this happens after it was destroyed. *)
Theorem destroy_is_final s r (j : nat) e :
  reachable s →
  trace s !! j = Some e →
  touches r e = true →
  1 <= sumZ (made r) (trace s) ∧
  (sumZ (made r) (trace s) <= 1 →
   ∀ i : nat, trace s !! i = Some (EvDestroy r) → (j <= i)%nat).
Proof.
  intros Hr Hj He. pose proof (reachable_Alive s Hr) as HA.
  split; [by eapply alive_made|].
  intros Hmade i Hi.
  destruct (decide (i < j)%nat) as [Hij|]; [|lia].
  pose proof (alive_final s HA i j r e Hi Hj He Hij). lia.
Qed.

(** X11: for each resource, the places it is in (the channel and the
    goroutines that hold it) plus the times it was destroyed are at
    most the times the factory returned it.  A resource the factory
    returned once is in one place at most, is destroyed once at most,
    and is nowhere once destroyed. *)
Theorem resources_in_one_place s r :
  reachable s →
  0 <= occurs r s ∧
  occurs r s + sumZ (destroyed r) (trace s) <= sumZ (made r) (trace s).
Proof.
  intros Hr. split; [apply occurs_nonneg|].
  apply (led_made s (reachable_Ledger s Hr) r).
Qed.

(** ** The errors of [Call] *)

Lemma err_origin_app tr evs c : err_origin tr c → err_origin (tr ++ evs) c.
Proof.
  assert (∀ err, factory_failed tr err → factory_failed (tr ++ evs) err) as Hf.
  { intros err (e & -> & He). exists e. split; [done|].
    apply elem_of_app. by left. }
  assert (∀ src err, callback_ended tr src err →
                     callback_ended (tr ++ evs) src err) as Hc.
  { intros src err (out & -> & He). exists out. split; [done|].
    apply elem_of_app. by left. }
  destruct c; simpl; try done; try (by apply Hc);
    try (destruct err; [by apply Hf|done]).
  all: intros [?|[src ?]]; [left; by apply Hf|right; exists src; by apply Hc].
Qed.

Lemma Origins_step s t o s' :
  Inv s → Origins s → step t o s = Some s' → Origins s'.
Proof.
  intros HI HO Hs.
  apply step_inv in Hs as (c & p' & c' & evs & Ht & He & ->).
  pose proof (lookup_lt_Some _ _ _ Ht) as Hlt.
  intros t' c''. simpl.
  destruct (decide (t' = t)) as [->|Hne].
  - rewrite list_lookup_insert_eq by done. intros [= <-].
    pose proof (HO t c Ht) as Hold.
    apply (err_origin_app _ evs) in Hold.
    destruct c; facts HI Ht; exec_cases He; simpl in *; try done;
      try (by right; eauto).
    + exists e. split; [done|]. apply elem_of_app. right. by left.
    + by left.
    + exists (o_callback o). split; [done|]. apply elem_of_app. right. by left.
  - rewrite list_lookup_insert_ne by done. intros Ht'.
    apply err_origin_app. by apply (HO t').
Qed.

Lemma reachable_Origins s : reachable s → Origins s.
Proof.
  intros (cap & mi & gct & s0 & Hc & Hm & H0 & Hs).
  pose proof (Inv_ClassicPool _ _ _ _ Hc Hm H0) as HI0.
  assert (Origins s0) as HO0.
  { unfold ClassicPool in H0. case_match; simplify_eq.
    intros [|[|t]] c ?; simplify_eq/=. done. }
  clear H0. induction Hs as [|s1 s2 s3 Hs12 IH Hstep]; [done|].
  specialize (IH HI0 HO0). pose proof (Inv_Steps _ _ HI0 Hs12) as HI2.
  destruct Hstep as [t o s2 s3 Hs|c s2 Hc2]; [by eapply Origins_step|].
  intros t c0 Ht. apply lookup_app_Some in Ht as [Ht|[_ Ht]]; [by eapply IH|].
  destruct (t - length (threads s2))%nat; simplify_eq/=. by destruct Hc2.
Qed.

(** X16: what a [Call] has returned is an error returned by the
    factory or the outcome of a callback it ran (its error, nil, or
    its panic as an error). *)
Theorem Call_error_origin s t err :
  reachable s →
  threads s !! t = Some (Call_return err) →
  factory_failed (trace s) err ∨ ∃ src, callback_ended (trace s) src err.
Proof. intros Hr Ht. apply (reachable_Origins s Hr t _ Ht). Qed.

(** ** Whole calls *)

(** X1: [Len], entered when nobody is inside the mutex, returns
    the [len] of the struct after three statements and leaves the
    struct and the trace as they were; that [len] is at least the
    number of idle resources and at most [capacity]. *)
Theorem Len_is_observational s t o1 o2 o3 :
  reachable s →
  threads s !! t = Some Len_RLock →
  writer (pool s) = None →
  readers (pool s) = 0%nat →
  steps t [o1; o2; o3] s =
  Some {| pool := pool s;
          threads := <[t := Len_return (len (pool s))]> (threads s);
          trace := trace s |} ∧
  chan_len (pool s) <= len (pool s) <= capacity (pool s).
Proof.
  intros Hr Ht Hw Hrd. pose proof (reachable_Inv s Hr) as HI.
  destruct (free_facts s t _ HI Hw Ht) as (_ & _ & Hch).
  pose proof (inv_len s HI) as Hlen. simpl in Hch.
  split; [|lia]. clear Hr HI Hch Hlen. rewrite <- moved_nil.
  destruct s as [[sr cl cap mi ln gct rel w rd] l tr]; simpl in * |-; subst.
  run1. run1. run1. reflexivity.
Qed.

(** A usable resource at the front of the channel: eleven statements
    from the entry of [Call] to its return. *)
Lemma fast_path_run s t src rest o :
  reachable s →
  threads s !! t = Some Call_RLock →
  srcs (pool s) = src :: rest →
  o_usable o = true →
  writer (pool s) = None →
  readers (pool s) = 0%nat →
  steps t (replicate 11 o) s =
  Some (moved t (Call_return (callback_error (o_callback o)))
          (with_srcs (rest ++ [src]) (pool s))
          [EvIsUsable src true; EvCallback src (o_callback o); EvReset src] s).
Proof.
  intros Hr Ht Hsrcs Ho Hw Hrd. pose proof (reachable_Inv s Hr) as HI.
  destruct (free_facts s t _ HI Hw Ht) as (Hrel & _ & _).
  pose proof (inv_chan s HI) as Hch. pose proof (inv_open s HI) as Hopen.
  clear Hr HI.
  destruct s as [[sr cl cap mi ln gct rel w rd] l tr];
    unfold chan_len in *; simpl in * |-; subst. simpl in Hch.
  simpl replicate.
  run1. run1. run1. run1. run1_by ltac:(rewrite Ho). run1. run1. run1. run1.
  run1_by ltac:(rewrite (proj2 (Z.ltb_lt (Z.of_nat (length rest)) cap)) by lia).
  run1. reflexivity.
Qed.

(** X13: a [Call] that finds a usable resource at the front of the
    channel, alone and with nobody inside the mutex, returns after
    eleven statements what the callback gave: the resource was probed,
    handed to the callback, reset and parked at the back; [len] is
    unchanged and the factory was not called. *)
Theorem Call_fast_path s t src rest o :
  reachable s →
  threads s !! t = Some Call_RLock →
  srcs (pool s) = src :: rest →
  o_usable o = true →
  writer (pool s) = None →
  readers (pool s) = 0%nat →
  steps t (replicate 11 o) s =
  Some (moved t (Call_return (callback_error (o_callback o)))
          (with_srcs (rest ++ [src]) (pool s))
          [EvIsUsable src true; EvCallback src (o_callback o); EvReset src] s).
Proof. apply fast_path_run. Qed.

(** X14: a [Call] on an empty channel with room to grow whose factory
    fails returns the error of the factory after nine statements: the
    struct is what it was, the factory was called once and the
    callback not at all. *)
Theorem Call_factory_error s t e o :
  reachable s →
  threads s !! t = Some Call_RLock →
  srcs (pool s) = [] →
  len (pool s) < capacity (pool s) →
  o_factory o = inr e →
  writer (pool s) = None →
  readers (pool s) = 0%nat →
  steps t (replicate 9 o) s =
  Some (moved t (Call_return (Some e)) (pool s) [EvFactory (inr e)] s).
Proof.
  intros Hr Ht Hsrcs Hlen Ho Hw Hrd. pose proof (reachable_Inv s Hr) as HI.
  destruct (free_facts s t _ HI Hw Ht) as (Hrel & _ & _).
  pose proof (inv_open s HI) as Hopen. clear Hr HI.
  destruct s as [[sr cl cap mi ln gct rel w rd] l tr]; simpl in * |-; subst.
  simpl replicate.
  run1. run1. run1. run1. run1.
  run1_by ltac:(rewrite (proj2 (Z.leb_gt _ _) Hlen)).
  run1_by ltac:(rewrite Ho). run1. run1. reflexivity.
Qed.

(** An empty channel and room to grow: eleven statements make a
    resource, park it and lead back to the label [wait]. *)
Lemma growth_run s t src o :
  reachable s →
  threads s !! t = Some Call_RLock →
  srcs (pool s) = [] →
  len (pool s) < capacity (pool s) →
  o_factory o = inl src →
  writer (pool s) = None →
  readers (pool s) = 0%nat →
  steps t (replicate 11 o) s =
  Some (moved t Call_RLock
          (with_len (len (pool s) + 1) (with_srcs [src] (pool s)))
          [EvFactory (inl src)] s).
Proof.
  intros Hr Ht Hsrcs Hlen Hf Hw Hrd. pose proof (reachable_Inv s Hr) as HI.
  destruct (free_facts s t _ HI Hw Ht) as (Hrel & _ & Hch).
  pose proof (inv_open s HI) as Hopen. pose proof (inv_cap s HI) as Hcap.
  pose proof (inv_len s HI) as Hl. clear Hr HI.
  destruct s as [[sr cl cap mi ln gct rel w rd] l tr];
    unfold chan_len in *; simpl in * |-; subst. simpl in Hch.
  assert ((0 <? cap) = true) as H0 by (apply Z.ltb_lt; lia).
  simpl replicate.
  run1. run1. run1. run1. run1.
  run1_by ltac:(rewrite (proj2 (Z.leb_gt _ _) Hlen)).
  run1_by ltac:(rewrite Hf).
  run1_by ltac:(change (Z.of_nat 0) with 0; rewrite H0).
  run1_by ltac:(rewrite wrap_id by (unfold is_int, int_min, int_max in *; lia)).
  run1. run1. reflexivity.
Qed.

(** X17: a [Call] on an empty channel with room to grow, alone with
    the mutex free, returns after twenty-two statements what the
    callback gave: the factory was called once, the new resource was
    probed, handed to the callback, reset and parked, and [len] is one
    higher. *)
Theorem Call_grows_then_borrows s t src o :
  reachable s →
  threads s !! t = Some Call_RLock →
  srcs (pool s) = [] →
  len (pool s) < capacity (pool s) →
  o_factory o = inl src →
  o_usable o = true →
  writer (pool s) = None →
  readers (pool s) = 0%nat →
  steps t (replicate 22 o) s =
  Some (moved t (Call_return (callback_error (o_callback o)))
          (with_len (len (pool s) + 1) (with_srcs [src] (pool s)))
          [EvFactory (inl src); EvIsUsable src true;
           EvCallback src (o_callback o); EvReset src] s).
Proof.
  intros Hr Ht Hsrcs Hlen Hf Ho Hw Hrd.
  pose proof (growth_run s t src o Hr Ht Hsrcs Hlen Hf Hw Hrd) as Hgrow.
  change 22%nat with (11 + 11)%nat. rewrite replicate_add.
  rewrite (steps_app_Some _ _ _ _ _ Hgrow).
  rewrite (fast_path_run _ t src [] o).
  - rewrite moved_moved. simpl. by destruct (pool s).
  - by eapply reachable_steps.
  - by eapply moved_lookup.
  - done.
  - done.
  - done.
  - done.
Qed.

(** One more statement of the retry loop on a pool with an empty
    channel and no room to grow. *)
Lemma saturated_step s t o c :
  threads s !! t = Some c →
  spin_lock t c (pool s) →
  capacity (pool s) <= len (pool s) →
  srcs (pool s) = [] → srcs_closed (pool s) = false →
  released (pool s) = false →
  ∃ s' c', step t o s = Some s' ∧
    threads s' !! t = Some c' ∧ spin_lock t c' (pool s') ∧ spinning c' = true ∧
    capacity (pool s') = capacity (pool s) ∧ len (pool s') = len (pool s) ∧
    srcs (pool s') = [] ∧ srcs_closed (pool s') = false ∧
    released (pool s') = false ∧ trace s' = trace s.
Proof.
  intros Ht Hsp Hlen Hsrcs Hopen Hrel.
  pose proof (lookup_lt_Some _ _ _ Ht) as Hlt.
  unfold step. rewrite Ht. simpl.
  destruct s as [[sr cl cap mi ln gct rel w rd] l tr]; simpl in * |-; subst.
  destruct c; try done;
    try (match goal with e : option error |- _ => destruct e end; try done);
    simpl in Hsp; destruct Hsp as [-> ->]; cbn;
    rewrite ?(proj2 (Z.leb_le cap ln) Hlen); cbn;
    eexists _, _; (split; [reflexivity|]); simpl;
    rewrite list_lookup_insert_eq by done;
    (split; [reflexivity|]); simpl; rewrite ?app_nil_r; done.
Qed.

(** X15: a [Call] on a pool whose resources are all out ([len] equal
    to [capacity], channel empty) spins: alone, it can always run one
    more statement and stays in the retry loop, without calling the
    factory or the callback and without changing [len]. *)
Theorem Call_spins_when_saturated s t os :
  reachable s →
  threads s !! t = Some Call_RLock →
  srcs (pool s) = [] →
  len (pool s) = capacity (pool s) →
  writer (pool s) = None →
  readers (pool s) = 0%nat →
  ∃ s' c, steps t os s = Some s' ∧
    threads s' !! t = Some c ∧ spinning c = true ∧
    trace s' = trace s ∧ len (pool s') = len (pool s) ∧
    srcs (pool s') = [] ∧ released (pool s') = false.
Proof.
  intros Hr Ht Hsrcs Hlen Hw Hrd. pose proof (reachable_Inv s Hr) as HI.
  destruct (free_facts s t _ HI Hw Ht) as (Hrel & _ & _).
  pose proof (inv_open s HI) as Hopen.
  assert (capacity (pool s) <= len (pool s)) as Hfull by lia.
  assert (spin_lock t Call_RLock (pool s)) as Hsp by done.
  assert (spinning Call_RLock = true) as Hspin by done.
  clear Hr HI Hw Hrd Hlen.
  revert Ht Hsp Hspin. generalize Call_RLock as c.
  revert s Hfull Hrel Hopen Hsrcs.
  induction os as [|o os IH]; intros s Hfull Hrel Hopen Hsrcs c Ht Hsp Hspin.
  - exists s, c. by split_and!.
  - destruct (saturated_step s t o c Ht Hsp Hfull Hsrcs Hopen Hrel)
      as (s1 & c1 & Hs & Ht1 & Hsp1 & Hspin1 & Hcap1 & Hlen1 & Hsrcs1 &
          Hopen1 & Hrel1 & Htr1).
    destruct (IH s1 ltac:(lia) Hrel1 Hopen1 Hsrcs1 c1 Ht1 Hsp1 Hspin1)
      as (s' & c' & Hrun & Ht' & Hspin' & Htr' & Hlen' & Hsrcs' & Hrel').
    exists s', c'. simpl. rewrite Hs. simpl.
    split_and!; try done; congruence.
Qed.

(** ** The further properties at work *)

Lemma Len_is_observational_witness :
  reachable (go Len_RLock parked7) ∧
  threads (go Len_RLock parked7) !! 2%nat = Some Len_RLock ∧
  writer (pool (go Len_RLock parked7)) = None ∧
  readers (pool (go Len_RLock parked7)) = 0%nat ∧
  steps 2 [makes 7; makes 7; makes 7] (go Len_RLock parked7) =
  Some {| pool := pool parked7;
          threads := <[2%nat := Len_return 1]> (threads (go Len_RLock parked7));
          trace := trace parked7 |}.
Proof.
  assert (reachable (go Len_RLock parked7)) as Hr
    by (apply reachable_go; [apply reachable_parked7|constructor]).
  split_and!; [done|reflexivity..|].
  apply (Len_is_observational (go Len_RLock parked7) 2
           (makes 7) (makes 7) (makes 7) Hr); reflexivity.
Defined.

Lemma Len_results_in_range_witness :
  reachable counted7 ∧
  threads counted7 !! 2%nat = Some (Len_return 1) ∧
  0 <= 1 <= capacity (pool counted7).
Proof.
  split_and!; [apply reachable_counted7|reflexivity|..];
    apply (Len_results_in_range counted7 2 1 reachable_counted7 eq_refl).
Defined.

Lemma len_counts_resources_witness :
  reachable borrowed78 ∧
  writer (pool borrowed78) = None ∧
  len (pool borrowed78) =
  chan_len (pool borrowed78) + count borrowing (threads borrowed78) +
  count deleting (threads borrowed78).
Proof.
  split_and!; [apply reachable_borrowed78|reflexivity|].
  apply (len_counts_resources borrowed78 reachable_borrowed78 eq_refl).
Defined.

Lemma mutex_excludes_witness :
  reachable closing7 ∧
  threads closing7 !! 2%nat = Some Release_len ∧
  holdsW Release_len = true ∧
  holdsW Release_len || holdsR Release_len = true ∧
  2%nat = 2%nat.
Proof.
  split_and!; [apply reachable_closing7|reflexivity..|].
  apply (mutex_excludes closing7 2 Release_len 2 Release_len
           reachable_closing7); reflexivity.
Defined.

Lemma pool_never_panics_witness :
  reachable parked7 ∧
  srcs_closed (pool parked7) = false ∧
  threads parked7 !! 1%nat ≠ Some panicked ∧
  threads parked7 !! 1%nat ≠ Some Release_close.
Proof.
  split; [apply reachable_parked7|].
  apply (pool_never_panics parked7 1 reachable_parked7).
Defined.

Lemma send_never_waits_witness :
  reachable parking7 ∧
  threads parking7 !! 1%nat = Some (recover_send 7%nat None) ∧
  send 7%nat (pool parking7) =
  Sent (with_srcs (srcs (pool parking7) ++ [7%nat]) (pool parking7)).
Proof.
  split_and!; [apply reachable_parking7|reflexivity|].
  apply (send_never_waits parking7 1 (recover_send 7%nat None) 7%nat
           reachable_parking7 eq_refl).
  right. by exists None.
Defined.

Lemma released_blocks_everyone_witness :
  reachable drained7 ∧
  released (pool drained7) = true ∧
  threads drained7 !! 0%nat = Some gc_isReleased_RLock ∧
  acquiring gc_isReleased_RLock = true ∧
  step 0 (makes 7) drained7 = None.
Proof.
  split_and!; [apply reachable_drained7|reflexivity..|].
  apply (released_blocks_everyone drained7 0 gc_isReleased_RLock (makes 7)
           reachable_drained7); reflexivity.
Defined.

Lemma gc_never_returns_witness :
  reachable idle78 ∧
  threads idle78 !! 0%nat ≠ Some gc_return ∧
  threads idle78 !! 0%nat ≠ Some (gc_isReleased_RUnlock true).
Proof.
  split; [apply reachable_idle78|].
  apply (gc_never_returns idle78 0 reachable_idle78).
Defined.

Lemma released_is_never_seen_witness :
  reachable testing7 ∧
  threads testing7 !! 2%nat = Some Call_released ∧
  tests_released Call_released = true ∧
  released (pool testing7) = false.
Proof.
  split_and!; [apply reachable_testing7|reflexivity..|].
  apply (released_is_never_seen testing7 2 Call_released
           reachable_testing7); reflexivity.
Defined.

Lemma Release_keeps_the_lock_witness :
  reachable closing7 ∧
  threads closing7 !! 2%nat = Some Release_len ∧
  closing Release_len = true ∧
  ∀ s', Steps closing7 s' →
    writer (pool s') = Some 2%nat ∧
    ∃ c', threads s' !! 2%nat = Some c' ∧ closing c' = true.
Proof.
  split_and!; [apply reachable_closing7|reflexivity..|].
  apply (Release_keeps_the_lock closing7 2 Release_len
           reachable_closing7); reflexivity.
Defined.

Lemma resources_in_one_place_witness :
  reachable parked7 ∧
  0 <= occurs 7%nat parked7 ∧
  occurs 7%nat parked7 + sumZ (destroyed 7%nat) (trace parked7) <=
  sumZ (made 7%nat) (trace parked7).
Proof.
  split; [apply reachable_parked7|].
  apply (resources_in_one_place parked7 7%nat reachable_parked7).
Defined.

Lemma destroy_is_final_witness :
  reachable drained7 ∧
  trace drained7 !! 2%nat = Some (EvCallback 7%nat (Returns None)) ∧
  touches 7%nat (EvCallback 7%nat (Returns None)) = true ∧
  1 <= sumZ (made 7%nat) (trace drained7) ∧
  (sumZ (made 7%nat) (trace drained7) <= 1 →
   ∀ i : nat, trace drained7 !! i = Some (EvDestroy 7%nat) → (2 <= i)%nat).
Proof.
  split_and!; [apply reachable_drained7|reflexivity..| |];
    apply (destroy_is_final drained7 7%nat 2 (EvCallback 7%nat (Returns None))
             reachable_drained7); reflexivity.
Defined.

Lemma Call_fast_path_witness :
  reachable (go Call_RLock parked7) ∧
  threads (go Call_RLock parked7) !! 2%nat = Some Call_RLock ∧
  srcs (pool (go Call_RLock parked7)) = [7%nat] ∧
  o_usable faulty = true ∧
  writer (pool (go Call_RLock parked7)) = None ∧
  readers (pool (go Call_RLock parked7)) = 0%nat ∧
  steps 2 (replicate 11 faulty) (go Call_RLock parked7) =
  Some (moved 2 (Call_return (Some (FaultError 3)))
          (with_srcs [7%nat] (pool parked7))
          [EvIsUsable 7%nat true; EvCallback 7%nat (Panics 3);
           EvReset 7%nat] (go Call_RLock parked7)).
Proof.
  assert (reachable (go Call_RLock parked7)) as Hr
    by (apply reachable_go; [apply reachable_parked7|constructor]).
  split_and!; [done|reflexivity..|].
  apply (Call_fast_path (go Call_RLock parked7) 2 7%nat [] faulty Hr);
    reflexivity.
Defined.

Lemma Call_factory_error_witness :
  reachable (go Call_RLock (fresh 2 1)) ∧
  threads (go Call_RLock (fresh 2 1)) !! 1%nat = Some Call_RLock ∧
  srcs (pool (go Call_RLock (fresh 2 1))) = [] ∧
  len (pool (go Call_RLock (fresh 2 1))) <
    capacity (pool (go Call_RLock (fresh 2 1))) ∧
  o_factory failing = inr (UserError 5) ∧
  writer (pool (go Call_RLock (fresh 2 1))) = None ∧
  readers (pool (go Call_RLock (fresh 2 1))) = 0%nat ∧
  steps 1 (replicate 9 failing) (go Call_RLock (fresh 2 1)) =
  Some (moved 1 (Call_return (Some (UserError 5))) (pool (fresh 2 1))
          [EvFactory (inr (UserError 5))] (go Call_RLock (fresh 2 1))).
Proof.
  assert (reachable (go Call_RLock (fresh 2 1))) as Hr.
  { apply reachable_go; [|constructor].
    apply reachable_fresh; [lia|apply is_int_small; lia..]. }
  split_and!; [done|reflexivity..|].
  apply (Call_factory_error (go Call_RLock (fresh 2 1)) 1 (UserError 5)
           failing Hr); reflexivity.
Defined.

Lemma Call_spins_when_saturated_witness :
  reachable (go Call_RLock borrowed78) ∧
  threads (go Call_RLock borrowed78) !! 3%nat = Some Call_RLock ∧
  srcs (pool (go Call_RLock borrowed78)) = [] ∧
  len (pool (go Call_RLock borrowed78)) =
    capacity (pool (go Call_RLock borrowed78)) ∧
  writer (pool (go Call_RLock borrowed78)) = None ∧
  readers (pool (go Call_RLock borrowed78)) = 0%nat ∧
  ∃ s' c, steps 3 (replicate 100 (makes 9)) (go Call_RLock borrowed78) =
          Some s' ∧
    threads s' !! 3%nat = Some c ∧ spinning c = true ∧
    trace s' = trace (go Call_RLock borrowed78) ∧
    len (pool s') = len (pool (go Call_RLock borrowed78)) ∧
    srcs (pool s') = [] ∧ released (pool s') = false.
Proof.
  assert (reachable (go Call_RLock borrowed78)) as Hr
    by (apply reachable_go; [apply reachable_borrowed78|constructor]).
  split_and!; [done|reflexivity..|].
  apply (Call_spins_when_saturated (go Call_RLock borrowed78) 3
           (replicate 100 (makes 9)) Hr); reflexivity.
Defined.

Lemma Call_error_origin_witness :
  reachable faulted7 ∧
  threads faulted7 !! 1%nat = Some (Call_return (Some (FaultError 3))) ∧
  (factory_failed (trace faulted7) (Some (FaultError 3)) ∨
   ∃ src, callback_ended (trace faulted7) src (Some (FaultError 3))).
Proof.
  split_and!; [apply reachable_faulted7|reflexivity|].
  apply (Call_error_origin faulted7 1 (Some (FaultError 3))
           reachable_faulted7 eq_refl).
Defined.

Lemma Call_grows_then_borrows_witness :
  reachable (go Call_RLock (fresh 2 1)) ∧
  threads (go Call_RLock (fresh 2 1)) !! 1%nat = Some Call_RLock ∧
  srcs (pool (go Call_RLock (fresh 2 1))) = [] ∧
  len (pool (go Call_RLock (fresh 2 1))) <
    capacity (pool (go Call_RLock (fresh 2 1))) ∧
  o_factory (makes 7) = inl 7%nat ∧
  o_usable (makes 7) = true ∧
  writer (pool (go Call_RLock (fresh 2 1))) = None ∧
  readers (pool (go Call_RLock (fresh 2 1))) = 0%nat ∧
  steps 1 (replicate 22 (makes 7)) (go Call_RLock (fresh 2 1)) =
  Some (moved 1 (Call_return None)
          (with_len 1 (with_srcs [7%nat] (pool (fresh 2 1))))
          [EvFactory (inl 7%nat); EvIsUsable 7%nat true;
           EvCallback 7%nat (Returns None); EvReset 7%nat]
          (go Call_RLock (fresh 2 1))).
Proof.
  assert (reachable (go Call_RLock (fresh 2 1))) as Hr.
  { apply reachable_go; [|constructor].
    apply reachable_fresh; [lia|apply is_int_small; lia..]. }
  split_and!; [done|reflexivity..|].
  apply (Call_grows_then_borrows (go Call_RLock (fresh 2 1)) 1 7%nat
           (makes 7) Hr); reflexivity.
Defined.
